(** * auto_convert: a directory watcher converting images to PNG and videos to MP4

    A shallow embedding of [auto_convert.py] and the properties of its
    ingestion pipeline: the stability prober [wait_for_file_ready], the two
    converters, the event handler with its in-flight set, and the start-up
    pass [process_existing_files].

    Conventions of the embedding.
    - A [pathlib.Path] is its string; [name], [suffix] and [stem] follow
      CPython's pure-path rules on POSIX; characters are 8-bit, [lower] acts
      on ASCII letters.
    - The filesystem is a finite map from paths to nodes.  The converters'
      back ends (Pillow, the ffmpeg subprocess) are parameters collected in
      an [Env]; every call to one of them is recorded in the state, next to
      the log records and the requested sleeps.
    - [time.monotonic()] readings and sleep intervals are integers
      (milliseconds); what [path.stat()] answers while another process is
      still writing the file is given by a trace of polls.
    - Python exceptions are values of [exn]; a computation returns
      [Ok v] or [Raise e] together with the new state. *)

From Stdlib Require Import ZArith Ascii String.
From stdpp Require Import gmap strings list sorting.

Local Open Scope string_scope.
Local Open Scope Z_scope.
Local Open Scope list_scope.

(** ** Paths *)

Abbreviation path := string (only parsing).

(** [rsplit c s]: the text before the last [c] of [s] and the text after
    it ([str.rpartition]); [None] when [c] does not occur. *)
Fixpoint rsplit (c : ascii) (s : string) : option (string * string) :=
  match s with
  | EmptyString => None
  | String a s' =>
      match rsplit c s' with
      | Some (pre, post) => Some (String a pre, post)
      | None => if Ascii.eqb a c then Some (EmptyString, s') else None
      end
  end.

Definition nonempty (s : string) : bool :=
  match s with EmptyString => false | String _ _ => true end.

(** [Path.name]: the final component. *)
Definition name (p : path) : string :=
  match rsplit "/" p with Some (_, n) => n | None => p end.

(** [Path.parent], as a string. *)
Definition parent (p : path) : path :=
  match rsplit "/" p with
  | Some (d, _) => if nonempty d then d else "/"
  | None => "."
  end.

(** [Path.suffix]: from the last dot of the name, when that dot is
    neither the first nor the last character. *)
Definition suffix (p : path) : string :=
  match rsplit "." (name p) with
  | Some (pre, post) =>
      if nonempty pre && nonempty post then String "." post else EmptyString
  | None => EmptyString
  end.

(** [Path.stem]: the name without its suffix. *)
Definition stem (p : path) : string :=
  match rsplit "." (name p) with
  | Some (pre, post) =>
      if nonempty pre && nonempty post then pre else name p
  | None => name p
  end.

(** [dir / child]. *)
Definition joinpath (dir : path) (child : string) : path :=
  dir +:+ "/" +:+ child.

Definition lower_ascii (a : ascii) : ascii :=
  let n := nat_of_ascii a in
  if (65 <=? n)%nat && (n <=? 90)%nat then ascii_of_nat (n + 32) else a.

(** [str.lower]. *)
Fixpoint lower (s : string) : string :=
  match s with
  | EmptyString => EmptyString
  | String a s' => String (lower_ascii a) (lower s')
  end.

(** [s.startswith(".")]. *)
Definition startswith_dot (s : string) : bool :=
  match s with
  | String a _ => Ascii.eqb a "."
  | EmptyString => false
  end.

(** [str.isspace] on one 8-bit character. *)
Definition is_space (a : ascii) : bool :=
  let n := nat_of_ascii a in
  ((9 <=? n)%nat && (n <=? 13)%nat) || ((28 <=? n)%nat && (n <=? 32)%nat).

Fixpoint lstrip (s : string) : string :=
  match s with
  | String a s' => if is_space a then lstrip s' else s
  | EmptyString => EmptyString
  end.

Fixpoint rstrip (s : string) : string :=
  match s with
  | String a s' =>
      match rstrip s' with
      | EmptyString => if is_space a then EmptyString else String a EmptyString
      | r => String a r
      end
  | EmptyString => EmptyString
  end.

(** [str.strip()]. *)
Definition strip (s : string) : string := rstrip (lstrip s).

(** ** Exceptions, results, log records *)

Inductive exn :=
| FileNotFoundError
| UnidentifiedImageError
| CalledProcessError (returncode : Z) (stderr : string)
| OSError (what : string)
| OtherException (what : string)
| UnicodeDecodeError.

Inductive result (A : Type) :=
| Ok (a : A)
| Raise (e : exn).
Arguments Ok {A} a.
Arguments Raise {A} e.

Inductive level := DEBUG | INFO | WARNING | ERROR.

(** One constructor per format string of the source. *)
Inductive message :=
| MissingWhileWaiting (p : path)
| ImageOutputExists (out : path)
| CannotIdentifyImage (src : path)
| FailedToConvertImage (src : path) (e : exn)
| ConvertedImage (src_name out_name : string)
| VideoOutputExists (out : path)
| RunningFfmpeg (cmd : list string)
| FfmpegFailed (src : path) (diagnostic : string)
| FfmpegBinaryNotFound
| ConvertedVideo (src_name out_name : string)
| FfmpegOutput (diagnostic : string)
| DidNotStabilize (p : path)
| NoConverterRegistered (p : path)
| ProcessingExistingFile (file_name : string).

Definition record : Type := level * message.

(** ** The state the program acts on *)

Inductive node :=
| File (content : string)
| Dir.

(** Calls that leave the program: Pillow and the subprocess. *)
Inductive call :=
| CallImage (src out : path)
| CallSubprocess (cmd : list string).

Record state := mkState {
  fs : gmap string node;
  log : list record;
  calls : list call;
  slept : Z;
  in_progress : gset string
}.

Definition set_fs (f : gmap string node) (s : state) : state :=
  mkState f (log s) (calls s) (slept s) (in_progress s).
Definition logging (l : level) (m : message) (s : state) : state :=
  mkState (fs s) (log s ++ [(l, m)]) (calls s) (slept s) (in_progress s).
Definition record_call (c : call) (s : state) : state :=
  mkState (fs s) (log s) (calls s ++ [c]) (slept s) (in_progress s).
Definition sleep (interval : Z) (s : state) : state :=
  mkState (fs s) (log s) (calls s) (slept s + interval) (in_progress s).
Definition set_in_progress (t : gset string) (s : state) : state :=
  mkState (fs s) (log s) (calls s) (slept s) t.

(** [path.exists()] and [path.is_file()], as lookups: an operating system
    that refuses the [stat] (permissions) is not modelled. *)
Definition exists_ (p : path) (s : state) : bool :=
  match fs s !! p with Some _ => true | None => false end.
Definition is_file (p : path) (s : state) : bool :=
  match fs s !! p with Some (File _) => true | _ => false end.

(** ** wait_for_file_ready *)

(** One turn of the loop as the outside world answers it: the clock
    reading at the loop test and what [path.stat().st_size] gives. *)
Record poll := mkPoll { now : Z; stat : result Z }.

(** Where a run of the loop stands: it has returned or raised ([Done]),
    or it has used up the polls given and is still looping with these
    locals ([Pending]). *)
Inductive run :=
| Done (r : result bool) (s : state)
| Pending (last_size stable_count : Z) (s : state).

Fixpoint wait_loop (p : path) (deadline stable_checks interval : Z)
    (trace : list poll) (last_size stable_count : Z) (s : state) : run :=
  match trace with
  | [] => Pending last_size stable_count s
  | q :: rest =>
      if now q <? deadline then
        match stat q with
        | Raise FileNotFoundError =>
            let s := logging DEBUG (MissingWhileWaiting p) s in
            let s := sleep interval s in
            wait_loop p deadline stable_checks interval rest last_size stable_count s
        | Raise e => Done (Raise e) s
        | Ok size =>
            if (size =? last_size) && (0 <? size) then
              let stable_count := stable_count + 1 in
              if stable_checks <=? stable_count then Done (Ok true) s
              else
                wait_loop p deadline stable_checks interval rest
                  last_size stable_count (sleep interval s)
            else
              wait_loop p deadline stable_checks interval rest
                size 0 (sleep interval s)
        end
      else Done (Ok false) s
  end.

(** [t0] is the reading of [time.monotonic()] taken before the loop. *)
Definition wait_for_file_ready (p : path) (timeout stable_checks interval : Z)
    (t0 : Z) (trace : list poll) (s : state) : run :=
  let deadline := t0 + timeout in
  wait_loop p deadline stable_checks interval trace (-1) 0 s.

(** ** Computations that may raise *)

Definition M (A : Type) : Type := state -> result A * state.

Definition ret {A} (a : A) : M A := fun s => (Ok a, s).

Definition bind {A B} (m : M A) (k : A -> M B) : M B :=
  fun s =>
    match m s with
    | (Ok a, s') => k a s'
    | (Raise e, s') => (Raise e, s')
    end.

Notation "x <- m ;; k" := (bind m (fun x => k))
  (at level 100, m at next level, right associativity).
Notation "m ;; k" := (bind m (fun _ => k))
  (at level 100, right associativity).

(** A statement that only changes the state. *)
Definition exec (f : state -> state) : M unit := fun s => (Ok tt, f s).

(** [try: body finally: cleanup]: the clean-up runs whether the body
    returned or raised, and the body's result is passed on. *)
Definition try_finally {A} (body : M A) (cleanup : state -> state) : M A :=
  fun s => let '(r, s') := body s in (r, cleanup s').

(** [for x in l: body x]. *)
Fixpoint for_each {A} (body : A -> M unit) (l : list A) : M unit :=
  match l with
  | [] => ret tt
  | x :: l' => body x ;; for_each body l'
  end.

(** ** The operating system and the back ends *)

(** What [Image.open(src)] ... [img.save(output_path, format="PNG")] does:
    it saves the PNG, or raises, possibly after part of the file was
    written. *)
Inductive image_outcome :=
| ImageSaved (png : string)
| ImageRaised (e : exn) (partial : option string).

(** What starting the child process does: it cannot be started; or it runs
    to its exit status, with its captured stderr and what it left in its
    output file; or it runs to its exit status and what it wrote to stderr
    cannot be decoded as text. *)
Inductive spawn_outcome :=
| SpawnRaised (e : exn)
| Exited (returncode : Z) (stderr : string) (written : option string)
| ExitedUndecodable (returncode : Z) (written : option string).

Record Env := mkEnv {
  pillow : string -> string -> gmap string node -> image_outcome;
  spawn : list string -> gmap string node -> spawn_outcome
}.

Definition write (p : path) (content : option string) (s : state) : state :=
  match content with
  | Some c => set_fs (<[p := File c]> (fs s)) s
  | None => s
  end.

(** [os.mkdir]. *)
Definition os_mkdir (p : path) (f : gmap string node) : result (gmap string node) :=
  match f !! p with
  | Some _ => Raise (OSError "FileExistsError")
  | None =>
      match f !! parent p with
      | Some Dir => Ok (<[p := Dir]> f)
      | Some (File _) => Raise (OSError "NotADirectoryError")
      | None => Raise FileNotFoundError
      end
  end.

(** [Path.mkdir(parents=True, exist_ok=True)]; [fuel] bounds the number of
    missing ancestors. *)
Fixpoint mkdir (fuel : nat) (p : path) (f : gmap string node)
    : result (gmap string node) :=
  match os_mkdir p f with
  | Ok f' => Ok f'
  | Raise FileNotFoundError =>
      match fuel with
      | O => Raise FileNotFoundError
      | S n =>
          if String.eqb (parent p) p then Raise FileNotFoundError
          else
            match mkdir n (parent p) f with
            | Ok f' => os_mkdir p f'
            | Raise e => Raise e
            end
      end
  | Raise e =>
      match f !! p with
      | Some Dir => Ok f
      | _ => Raise e
      end
  end.

(** [Path.unlink(missing_ok=True)]. *)
Definition unlink (p : path) : M unit := fun s =>
  match fs s !! p with
  | Some Dir => (Raise (OSError "IsADirectoryError"), s)
  | _ => (Ok tt, set_fs (delete p (fs s)) s)
  end.

(** [subprocess.run(cmd, check=True, stdout=DEVNULL, stderr=PIPE, text=True)];
    the value returned is [result.stderr].  The child writes its output
    file, the last argument of the command.  With [text=True] the captured
    stderr is decoded once the child has exited and before the exit status
    is checked: when it does not decode, [UnicodeDecodeError] is raised
    whatever the exit status. *)
Definition subprocess_run (env : Env) (cmd : list string) : M string := fun s =>
  let s := record_call (CallSubprocess cmd) s in
  match spawn env cmd (fs s) with
  | SpawnRaised e => (Raise e, s)
  | Exited returncode stderr written =>
      let s := write (List.last cmd EmptyString) written s in
      if returncode =? 0 then (Ok stderr, s)
      else (Raise (CalledProcessError returncode stderr), s)
  | ExitedUndecodable returncode written =>
      (Raise UnicodeDecodeError, write (List.last cmd EmptyString) written s)
  end.

(** ** ensure_directory and the converters *)

Definition ensure_directory (p : path) : M unit := fun s =>
  if negb (exists_ p s) then
    match mkdir (String.length p) p (fs s) with
    | Ok f' => (Ok tt, set_fs f' s)
    | Raise e => (Raise e, s)
    end
  else (Ok tt, s).

Definition convert_image_to_png (env : Env) (src dest_dir : path) : M unit := fun s =>
  let output_path := joinpath dest_dir (stem src +:+ ".png") in
  if exists_ output_path s then
    (Ok tt, logging INFO (ImageOutputExists output_path) s)
  else
    let s := record_call (CallImage src output_path) s in
    match pillow env src output_path (fs s) with
    | ImageRaised UnidentifiedImageError partial =>
        (Ok tt, logging ERROR (CannotIdentifyImage src) (write output_path partial s))
    | ImageRaised exc partial =>
        (Ok tt, logging ERROR (FailedToConvertImage src exc) (write output_path partial s))
    | ImageSaved png =>
        (Ok tt, logging INFO (ConvertedImage (name src) (name output_path))
                  (write output_path (Some png) s))
    end.

Definition convert_video_to_mp4 (env : Env) (src dest_dir : path)
    (ffmpeg_bin video_crf video_preset : string) : M unit := fun s =>
  let output_path := joinpath dest_dir (stem src +:+ ".mp4") in
  if exists_ output_path s then
    (Ok tt, logging INFO (VideoOutputExists output_path) s)
  else
    let cmd :=
      [ ffmpeg_bin; "-y"; "-i"; src; "-c:v"; "libx264"; "-preset"; video_preset;
        "-crf"; video_crf; "-c:a"; "aac"; "-b:a"; "192k"; output_path ] in
    let s := logging DEBUG (RunningFfmpeg cmd) s in
    match subprocess_run env cmd s with
    | (Raise (CalledProcessError _ stderr), s) =>
        let s := logging ERROR (FfmpegFailed src (strip stderr)) s in
        if exists_ output_path s then unlink output_path s else (Ok tt, s)
    | (Raise FileNotFoundError, s) =>
        (Ok tt, logging ERROR FfmpegBinaryNotFound s)
    | (Raise e, s) => (Raise e, s)
    | (Ok stderr, s) =>
        let s := logging INFO (ConvertedVideo (name src) (name output_path)) s in
        if nonempty stderr then (Ok tt, logging DEBUG (FfmpegOutput (strip stderr)) s)
        else (Ok tt, s)
    end.

(** ** ConversionConfig and ConversionHandler *)

Record ConversionConfig := mkConfig {
  input_dir : string;
  output_dir : string;
  image_exts : gset string;
  video_exts : gset string;
  ffmpeg_bin : string;
  video_crf : string;
  video_preset : string
}.

Definition image_output_dir (c : ConversionConfig) : path :=
  joinpath (output_dir c) "images".
Definition video_output_dir (c : ConversionConfig) : path :=
  joinpath (output_dir c) "videos".

Definition IMAGE_EXTENSIONS : gset string :=
  {[ ".jpg"; ".jpeg"; ".bmp"; ".gif"; ".tif"; ".tiff"; ".webp"; ".heic"; ".heif" ]}.
Definition VIDEO_EXTENSIONS : gset string :=
  {[ ".mp4"; ".mov"; ".mkv"; ".avi"; ".m4v"; ".wmv"; ".flv"; ".webm" ]}.

Definition _should_ignore (c : ConversionConfig) (p : path) (s : state) : bool :=
  let sfx := lower (suffix p) in
  if bool_decide (sfx ∉ image_exts c) && bool_decide (sfx ∉ video_exts c) then true
  else if startswith_dot (name p) then true
  else if negb (exists_ p s) then true
  else false.

(** The block under [with self._lock] in [_schedule]: [true] when the
    path was added. *)
Definition check_then_add (p : path) (t : gset string) : bool * gset string :=
  if bool_decide (p ∈ t) then (false, t) else (true, {[p]} ∪ t).

(** [self._in_progress.discard(path)]. *)
Definition discard (p : path) (t : gset string) : gset string := t ∖ {[p]}.

(** [_schedule]: the state afterwards and the thread it started, if any
    (a thread running [_process_path] on the path). *)
Definition _schedule (c : ConversionConfig) (p : path) (s : state)
    : state * option string :=
  if _should_ignore c p s then (s, None)
  else
    let '(added, t) := check_then_add p (in_progress s) in
    if added then (set_in_progress t s, Some p) else (s, None).

Record FileSystemEvent := mkEvent { is_directory : bool; src_path : string }.

Definition on_created (c : ConversionConfig) (ev : FileSystemEvent) (s : state)
    : state * option string :=
  if negb (is_directory ev) then _schedule c (src_path ev) s else (s, None).

Definition on_modified (c : ConversionConfig) (ev : FileSystemEvent) (s : state)
    : state * option string :=
  if negb (is_directory ev) then _schedule c (src_path ev) s else (s, None).

(** The [try] block of [_process_path], after the wait has answered. *)
Definition process_body (c : ConversionConfig) (env : Env) (p : path)
    (ready : bool) : M unit :=
  if negb ready then exec (logging WARNING (DidNotStabilize p))
  else
    let sfx := lower (suffix p) in
    if bool_decide (sfx ∈ image_exts c) then
      ensure_directory (image_output_dir c) ;;
      convert_image_to_png env p (image_output_dir c)
    else if bool_decide (sfx ∈ video_exts c) then
      ensure_directory (video_output_dir c) ;;
      convert_video_to_mp4 env p (video_output_dir c)
        (ffmpeg_bin c) (video_crf c) (video_preset c)
    else exec (logging DEBUG (NoConverterRegistered p)).

Definition release (p : path) (s : state) : state :=
  set_in_progress (discard p (in_progress s)) s.

(** [_process_path]; [None] while the wait is still polling. *)
Definition _process_path (c : ConversionConfig) (env : Env)
    (t0 : Z) (trace : list poll) (p : path) (s : state)
    : option (result unit * state) :=
  match wait_for_file_ready p 300000 3 500 t0 trace s with
  | Pending _ _ _ => None
  | Done r s1 =>
      Some (try_finally
              (fun s => match r with
                        | Ok ready => process_body c env p ready s
                        | Raise e => (Raise e, s)
                        end)
              (release p) s1)
  end.

(** ** process_existing_files *)

Definition path_le (a b : string) : Prop := String.leb a b = true.

#[global] Instance path_le_dec a b : Decision (path_le a b).
Proof. unfold path_le; apply _. Defined.

(** [sorted(...)] on paths of one directory. *)
Definition sorted (l : list string) : list string := merge_sort path_le l.

(** The entries directly inside a directory. *)
Definition entries (d : path) (s : state) : list string :=
  filter (fun p => parent p = d ∧ p ≠ d) (elements (dom (fs s))).

(** [directory.iterdir()], consumed at once (as [sorted] does). *)
Definition iterdir (d : path) : M (list string) := fun s =>
  match fs s !! d with
  | Some Dir => (Ok (entries d s), s)
  | Some (File _) => (Raise (OSError "NotADirectoryError"), s)
  | None => (Raise FileNotFoundError, s)
  end.

Definition process_existing_file (c : ConversionConfig) (env : Env) (p : path) : M unit :=
  fun s =>
  if is_file p s then
    let sfx := lower (suffix p) in
    if bool_decide (sfx ∈ image_exts c) || bool_decide (sfx ∈ video_exts c) then
      (exec (logging INFO (ProcessingExistingFile (name p))) ;;
       if bool_decide (sfx ∈ image_exts c) then
         ensure_directory (image_output_dir c) ;;
         convert_image_to_png env p (image_output_dir c)
       else
         ensure_directory (video_output_dir c) ;;
         convert_video_to_mp4 env p (video_output_dir c)
           (ffmpeg_bin c) (video_crf c) (video_preset c)) s
    else (Ok tt, s)
  else (Ok tt, s).

Definition process_existing_files (c : ConversionConfig) (env : Env) : M unit :=
  paths <- iterdir (input_dir c) ;;
  for_each (process_existing_file c env) (sorted paths).

(** ** What a run of the prober has seen *)

(** The sizes the loop reads, in order: those of the polls taken before
    the deadline is reached or [stat] raises something other than
    [FileNotFoundError]; a poll that finds the file missing reads none. *)
Fixpoint observed (deadline : Z) (trace : list poll) : list Z :=
  match trace with
  | [] => []
  | q :: rest =>
      if now q <? deadline then
        match stat q with
        | Ok size => size :: observed deadline rest
        | Raise FileNotFoundError => observed deadline rest
        | Raise _ => []
        end
      else []
  end.

(** The loop test fails at some poll of the trace (the timeout elapses)
    before [stat] raises. *)
Fixpoint timed_out (deadline : Z) (trace : list poll) : bool :=
  match trace with
  | [] => false
  | q :: rest =>
      if now q <? deadline then
        match stat q with
        | Ok _ => timed_out deadline rest
        | Raise FileNotFoundError => timed_out deadline rest
        | Raise _ => false
        end
      else true
  end.

(** The [j]-th observation is unchanged from the previous observation and
    greater than zero. *)
Definition stable_obs (sizes : list Z) (j : nat) : Prop :=
  ∃ x j', j = S j' ∧ sizes !! j' = Some x ∧ sizes !! j = Some x ∧ 0 < x.

(** [k] consecutive observations are stable. *)
Definition has_stable_run (k : nat) (sizes : list Z) : Prop :=
  ∃ i, ∀ j, (i ≤ j < i + k)%nat → stable_obs sizes j.

(** The number of polls of a trace whose [stat] succeeds. *)
Fixpoint successes (trace : list poll) : nat :=
  match trace with
  | [] => O
  | q :: rest =>
      match stat q with
      | Ok _ => S (successes rest)
      | Raise _ => successes rest
      end
  end.

(** The test of the loop body on each observation, starting from a
    last-seen size [l]. *)
Fixpoint flags_from (l : Z) (sizes : list Z) : list bool :=
  match sizes with
  | [] => []
  | x :: xs => ((x =? l) && (0 <? x)) :: flags_from x xs
  end.

Definition run_of (k : nat) (fl : list bool) : Prop :=
  ∃ i, ∀ j, (i ≤ j < i + k)%nat → fl !! j = Some true.

(** ** Inputs used in the examples *)

Definition example_config : ConversionConfig :=
  mkConfig "/in" "/out" IMAGE_EXTENSIONS VIDEO_EXTENSIONS "ffmpeg" "23" "medium".

Definition empty_state : state := mkState ∅ [] [] 0 ∅.

(** A file of 7 bytes seen three times, then missing for one poll. *)
Definition trace_missing : list poll :=
  [ mkPoll 0 (Ok 7); mkPoll 500 (Ok 7); mkPoll 1000 (Ok 7);
    mkPoll 1500 (Raise FileNotFoundError) ].

(** A file of 7 bytes seen four times. *)
Definition trace_steady : list poll :=
  [ mkPoll 0 (Ok 7); mkPoll 500 (Ok 7); mkPoll 1000 (Ok 7); mkPoll 1500 (Ok 7) ].

(** The command line [convert_video_to_mp4] builds. *)
Definition ffmpeg_cmd (src output_path ffmpeg_bin video_crf video_preset : string)
    : list string :=
  [ ffmpeg_bin; "-y"; "-i"; src; "-c:v"; "libx264"; "-preset"; video_preset;
    "-crf"; video_crf; "-c:a"; "aac"; "-b:a"; "192k"; output_path ].

(** The class directory and the destination of a source file, by its
    extension (images first). *)
Definition destination (c : ConversionConfig) (p : path) : option (string * string) :=
  let sfx := lower (suffix p) in
  if bool_decide (sfx ∈ image_exts c) then
    Some (image_output_dir c, joinpath (image_output_dir c) (stem p +:+ ".png"))
  else if bool_decide (sfx ∈ video_exts c) then
    Some (video_output_dir c, joinpath (video_output_dir c) (stem p +:+ ".mp4"))
  else None.

(** The entry needs no conversion: it is no regular file, its extension is
    not configured, or its class directory and its destination exist. *)
Definition already_converted (c : ConversionConfig) (s : state) (p : path) : bool :=
  if is_file p s then
    match destination c p with
    | Some (d, out) => exists_ d s && exists_ out s
    | None => true
    end
  else true.

(** Records of the two "output already exists, skipping" messages and of
    the start-up pass announcing a file. *)
Definition is_skip_record (r : record) : bool :=
  match r with
  | (INFO, ImageOutputExists _) | (INFO, VideoOutputExists _)
  | (INFO, ProcessingExistingFile _) => true
  | _ => false
  end.

Definition is_binary_not_found (r : record) : bool :=
  match r with
  | (ERROR, FfmpegBinaryNotFound) => true
  | _ => false
  end.

(** The start of [main] up to the observer: the two directories, then the
    start-up pass unless [--no-process-existing] was given. *)
Definition main_startup (c : ConversionConfig) (env : Env)
    (no_process_existing : bool) : M unit :=
  ensure_directory (input_dir c) ;;
  ensure_directory (output_dir c) ;;
  if negb no_process_existing then process_existing_files c env else ret tt.

(** A computation that leaves the in-flight set alone and never sleeps. *)
Definition keeps_tracker {A} (m : M A) : Prop :=
  ∀ s, in_progress (m s).2 = in_progress s ∧ slept (m s).2 = slept s.

(** Back ends of the examples: ffmpeg is not installed; ffmpeg rejects the
    input; everything converts. *)
Definition env_no_ffmpeg : Env :=
  mkEnv (fun _ _ _ => ImageSaved "PNG") (fun _ _ => SpawnRaised FileNotFoundError).

Definition env_invalid_codec : Env :=
  mkEnv (fun _ _ _ => ImageRaised UnidentifiedImageError None)
        (fun _ _ => Exited 1 "invalid codec
" (Some "partial")).

Definition env_converts : Env :=
  mkEnv (fun _ _ _ => ImageSaved "PNG") (fun _ _ => Exited 0 EmptyString (Some "MP4")).

Definition fs_two_videos : gmap string node :=
  list_to_map [ ("/", Dir); ("/in", Dir); ("/out", Dir);
                ("/in/a.mov", File "a"); ("/in/b.mov", File "b") ].

Definition fs_hidden : gmap string node :=
  list_to_map [ ("/", Dir); ("/in", Dir); ("/out", Dir);
                ("/in/.tmp.jpg", File "tmp") ].

Definition fs_empty_image : gmap string node :=
  list_to_map [ ("/", Dir); ("/in", Dir); ("/out", Dir);
                ("/in/a.jpg", File EmptyString) ].

Definition state_of (f : gmap string node) : state := mkState f [] [] 0 ∅.

(** Steps 2 to 9 of the live path applied to one path in one go:
    [_schedule], then the thread it starts, run to its end. *)
Definition live_steps (c : ConversionConfig) (env : Env)
    (t0 : Z) (trace : list poll) (p : path) (s : state)
    : option (result unit * state) :=
  match _schedule c p s with
  | (s1, Some q) => _process_path c env t0 trace q s1
  | (s1, None) => Some (Ok tt, s1)
  end.

(** An empty file polled until the timeout. *)
Definition trace_empty_file : list poll :=
  [ mkPoll 0 (Ok 0); mkPoll 300000 (Ok 0) ].

(** [n] events for paths delivered one after the other to [_schedule]:
    the state afterwards and the threads started, in order. *)
Fixpoint deliver (c : ConversionConfig) (events : list string) (s : state)
    : state * list string :=
  match events with
  | [] => (s, [])
  | p :: rest =>
      let '(s1, started) := _schedule c p s in
      let '(s2, l) := deliver c rest s1 in
      (s2, option_list started ++ l)
  end.

(** ** Threads of the handler, interleaved

    Every call of [_schedule] and every thread running [_process_path] is
    a thread of the system below; a step is one statement of one thread,
    at the grain of the accesses to [self._lock] and [self._in_progress]. *)

Inductive pc :=
| SchedStart        (* [_schedule] entered, before [_should_ignore] *)
| SchedWantLock     (* not ignored; at [with self._lock] *)
| SchedLocked       (* lock held; at [if path in self._in_progress] *)
| SchedUnlockDrop   (* lock held; path was present: [return] *)
| SchedAdding       (* lock held; path was absent; at [self._in_progress.add] *)
| SchedUnlockStart  (* lock held; path added; leaving the [with] block *)
| SchedStartThread  (* at [threading.Thread(...).start()] *)
| TaskRunning       (* [_process_path]: inside the [try] block *)
| TaskWantLock      (* [finally]: at [with self._lock] *)
| TaskLocked        (* lock held; at [self._in_progress.discard] *)
| TaskUnlock        (* lock held; path discarded; leaving the [with] block *)
| Finished.

Record thread := mkThread { th_path : string; th_pc : pc }.

Record system := mkSystem {
  tracker : gset string;      (* [self._in_progress] *)
  lock : option nat;          (* [self._lock]: the thread holding it *)
  threads : list thread
}.

(** The thread is inside a [with self._lock] block. *)
Definition holding (k : pc) : bool :=
  match k with
  | SchedLocked | SchedUnlockDrop | SchedAdding | SchedUnlockStart
  | TaskLocked | TaskUnlock => true
  | _ => false
  end.

(** The thread runs [_process_path] and has not returned. *)
Definition in_task (k : pc) : bool :=
  match k with
  | TaskRunning | TaskWantLock | TaskLocked | TaskUnlock => true
  | _ => false
  end.

(** The thread has added its path, or runs the task started for it. *)
Definition claims (k : pc) : bool :=
  match k with
  | SchedUnlockStart | SchedStartThread => true
  | k => in_task k
  end.

(** The path of a claiming thread is still in the set. *)
Definition entered (k : pc) : bool :=
  match k with
  | TaskUnlock => false
  | k => claims k
  end.

Inductive action :=
| Arrive (p : string)              (* the observer calls [_schedule p] *)
| Step (i : nat) (choice : bool).  (* thread [i] runs its next statement *)

Definition set_thread (i : nat) (p : string) (k : pc) (l : list thread) : list thread :=
  <[i := mkThread p k]> l.

(** One step.  [choice] answers what the model leaves open: whether
    [_should_ignore] says [True], and whether the [try] block of the task
    is over.  [None]: the thread cannot move (it waits for the lock, or
    has finished, or does not exist). *)
Definition step (σ : system) (a : action) : option system :=
  match a with
  | Arrive p =>
      Some (mkSystem (tracker σ) (lock σ) (threads σ ++ [mkThread p SchedStart]))
  | Step i choice =>
      match threads σ !! i with
      | None => None
      | Some (mkThread p k) =>
          let goto k' := set_thread i p k' (threads σ) in
          match k with
          | SchedStart =>
              Some (mkSystem (tracker σ) (lock σ)
                      (goto (if choice then Finished else SchedWantLock)))
          | SchedWantLock =>
              match lock σ with
              | None => Some (mkSystem (tracker σ) (Some i) (goto SchedLocked))
              | Some _ => None
              end
          | SchedLocked =>
              Some (mkSystem (tracker σ) (lock σ)
                      (goto (if bool_decide (p ∈ tracker σ)
                             then SchedUnlockDrop else SchedAdding)))
          | SchedUnlockDrop =>
              Some (mkSystem (tracker σ) None (goto Finished))
          | SchedAdding =>
              Some (mkSystem ({[p]} ∪ tracker σ) (lock σ) (goto SchedUnlockStart))
          | SchedUnlockStart =>
              Some (mkSystem (tracker σ) None (goto SchedStartThread))
          | SchedStartThread =>
              Some (mkSystem (tracker σ) (lock σ)
                      (goto Finished ++ [mkThread p TaskRunning]))
          | TaskRunning =>
              Some (mkSystem (tracker σ) (lock σ)
                      (goto (if choice then TaskWantLock else TaskRunning)))
          | TaskWantLock =>
              match lock σ with
              | None => Some (mkSystem (tracker σ) (Some i) (goto TaskLocked))
              | Some _ => None
              end
          | TaskLocked =>
              Some (mkSystem (discard p (tracker σ)) (lock σ) (goto TaskUnlock))
          | TaskUnlock =>
              Some (mkSystem (tracker σ) None (goto Finished))
          | Finished => None
          end
      end
  end.

Fixpoint steps (σ : system) (l : list action) : option system :=
  match l with
  | [] => Some σ
  | a :: l' =>
      match step σ a with
      | Some σ' => steps σ' l'
      | None => None
      end
  end.

(** The handler as [ConversionHandler.__init__] leaves it. *)
Definition initial : system := mkSystem ∅ None [].

Definition reachable (σ : system) : Prop := ∃ l, steps initial l = Some σ.

(** What holds of every reachable system. *)
Record invariant (σ : system) : Prop := mkInvariant {
  inv_lock : ∀ i th, threads σ !! i = Some th →
    holding (th_pc th) = true → lock σ = Some i;
  inv_claim : ∀ i j thi thj,
    threads σ !! i = Some thi → threads σ !! j = Some thj →
    claims (th_pc thi) = true → claims (th_pc thj) = true →
    th_path thi = th_path thj → i = j;
  inv_entered : ∀ i th, threads σ !! i = Some th →
    entered (th_pc th) = true → th_path th ∈ tracker σ;
  inv_adding : ∀ i th, threads σ !! i = Some th →
    th_pc th = SchedAdding → th_path th ∉ tracker σ
}.

(** ** normalise_extensions *)

(** The body of the loop of [normalise_extensions]. *)
Definition normalise_extension (normalised : gset string) (ext : string) : gset string :=
  if negb (nonempty ext) then normalised
  else
    let ext := if negb (startswith_dot ext) then "." +:+ ext else ext in
    {[lower ext]} ∪ normalised.

Definition normalise_extensions (exts : list string) : gset string :=
  foldl normalise_extension ∅ exts.


(** A computation that never removes or changes an entry of the
    filesystem. *)
Definition keeps_files {A} (m : M A) : Prop :=
  ∀ s, fs s ⊆ fs (m s).2.

(** Two sources with one stem, and a back end that writes what it read. *)
Definition fs_same_stem : gmap string node :=
  list_to_map [ ("/", Dir); ("/in", Dir); ("/out", Dir); ("/out/images", Dir);
                ("/in/a.bmp", File "bmp"); ("/in/a.jpg", File "jpg") ].

Definition env_copies : Env :=
  mkEnv (fun src _ f => match f !! src with
                        | Some (File data) => ImageSaved data
                        | _ => ImageRaised UnidentifiedImageError None
                        end)
        (fun _ _ => SpawnRaised (OSError "PermissionError")).

(** A poll taken before the deadline that reads the size [size]. *)
Definition reads (deadline size : Z) (q : poll) : Prop :=
  now q < deadline ∧ stat q = Ok size.

(** A file that grows until the third poll and then keeps its 9 bytes. *)
Definition trace_growing : list poll :=
  [ mkPoll 0 (Ok 3); mkPoll 500 (Ok 6) ].

Definition trace_settled : list poll :=
  [ mkPoll 1000 (Ok 9); mkPoll 1500 (Ok 9); mkPoll 2000 (Ok 9); mkPoll 2500 (Ok 9) ].

(** Nothing is left behind: every path of the set belongs to a thread that
    has added it and not yet discarded it, and the lock, when taken, is
    held by a thread inside a [with self._lock] block. *)
Record accounted (σ : system) : Prop := mkAccounted {
  acc_entry : ∀ p, p ∈ tracker σ →
    ∃ i th, threads σ !! i = Some th ∧ th_path th = p ∧ entered (th_pc th) = true;
  acc_lock : ∀ i, lock σ = Some i →
    ∃ th, threads σ !! i = Some th ∧ holding (th_pc th) = true
}.

(** An empty input directory, and one holding nothing to convert. *)
Definition fs_nothing_to_do : gmap string node :=
  list_to_map [ ("/", Dir); ("/in", Dir); ("/out", Dir);
                ("/in/notes.txt", File "text"); ("/in/old.jpg", Dir) ].

(** ffmpeg succeeds and reports on stderr. *)
Definition env_ffmpeg_ok : Env :=
  mkEnv (fun _ _ _ => ImageSaved "PNG")
        (fun _ _ => Exited 0 "frame=1 fps=25 " (Some "MP4")).

(** ** Further notions used in the statements *)

(** [str.isascii()]. *)
Fixpoint is_ascii (s : string) : bool :=
  match s with
  | EmptyString => true
  | String a s' => (nat_of_ascii a <? 128)%nat && is_ascii s'
  end.

(** Poll by poll: whether the poll reads a size that is unchanged from the
    previous observation and greater than zero.  A poll that finds the file
    missing reads no size; [last] is the previous observation, if any. *)
Fixpoint stable_polls (deadline : Z) (last : option Z) (trace : list poll)
    : list bool :=
  match trace with
  | [] => []
  | q :: rest =>
      if now q <? deadline then
        match stat q with
        | Ok size =>
            (bool_decide (last = Some size) && (0 <? size))
              :: stable_polls deadline (Some size) rest
        | Raise FileNotFoundError => false :: stable_polls deadline last rest
        | Raise _ => []
        end
      else []
  end.

(** The file a back-end call writes. *)
Definition call_destination (k : call) : string :=
  match k with
  | CallImage _ out => out
  | CallSubprocess cmd => List.last cmd EmptyString
  end.

(** A computation that calls a back end only for destinations that are
    absent when it starts. *)
Definition calls_absent {A} (m : M A) : Prop :=
  ∀ s, ∃ added,
    calls (m s).2 = calls s ++ added
    ∧ Forall (fun k => fs s !! call_destination k = None) added.

(** ffmpeg fails after writing part of its output, and what it wrote to
    stderr is no valid text. *)
Definition env_undecodable : Env :=
  mkEnv (fun _ _ _ => ImageSaved "PNG")
        (fun _ _ => ExitedUndecodable 1 (Some "partial")).

(** * Properties *)

(** ** Paths *)

Example suffix_of_hidden_name :
  suffix "/in/.tmp.jpg" = ".jpg" ∧ stem "/in/.tmp.jpg" = ".tmp"
  ∧ name "/in/.tmp.jpg" = ".tmp.jpg" ∧ parent "/in/.tmp.jpg" = "/in".
Proof. done. Qed.

Example suffix_of_dot_file : suffix "/in/.jpg" = EmptyString ∧ suffix "/in/a." = EmptyString.
Proof. done. Qed.

Example lower_suffix : lower (suffix "/in/photo.JpG") = ".jpg".
Proof. done. Qed.

(** ** The stability prober *)

Section Prober.
Variables (p : string) (deadline stable_checks interval : Z).

Local Abbreviation loop := (wait_loop p deadline stable_checks interval).

(** Polls given one after the other are polls given at once. *)
Lemma wait_loop_app t1 t2 l c s :
  loop (t1 ++ t2) l c s =
  match loop t1 l c s with
  | Done r s' => Done r s'
  | Pending l' c' s' => loop t2 l' c' s'
  end.
Proof.
  revert l c s; induction t1 as [|q t1 IH]; intros l c s; simpl; [done|].
  destruct (now q <? deadline); [|done].
  destruct (stat q) as [size|e].
  - destruct ((size =? l) && (0 <? size)); [|apply IH].
    destruct (stable_checks <=? c + 1); [done|apply IH].
  - destruct e; auto.
Qed.

Lemma run_of_full k fl : run_of k (replicate k true ++ fl).
Proof.
  exists O; intros j Hj. rewrite lookup_app_l; [|rewrite length_replicate; lia].
  apply lookup_replicate_2; lia.
Qed.

Lemma run_of_short k c : (c < k)%nat → ¬ run_of k (replicate c true).
Proof.
  intros Hc [i Hi].
  assert (Hl : (i + k - 1 < c)%nat).
  { specialize (Hi (i + k - 1)%nat ltac:(lia)).
    apply lookup_lt_Some in Hi. by rewrite length_replicate in Hi. }
  lia.
Qed.

Lemma run_of_broken k c fl :
  (c < k)%nat → run_of k (replicate c true ++ false :: fl) ↔ run_of k fl.
Proof.
  intros Hc; split; intros [i Hi].
  - destruct (decide (c < i)%nat) as [Hlt|Hge].
    + exists (i - S c)%nat; intros j Hj.
      specialize (Hi (j + S c)%nat ltac:(lia)).
      rewrite lookup_app_r in Hi; rewrite length_replicate in *; [|lia].
      by replace (j + S c - c)%nat with (S j) in Hi by lia.
    + specialize (Hi c ltac:(lia)).
      rewrite lookup_app_r in Hi; rewrite length_replicate in *; [|lia].
      by rewrite Nat.sub_diag in Hi.
  - exists (i + S c)%nat; intros j Hj.
    rewrite lookup_app_r; rewrite length_replicate; [|lia].
    replace (j - c)%nat with (S (j - S c)) by lia. simpl. apply Hi; lia.
Qed.

Lemma run_of_grow k c fl :
  run_of k (replicate c true ++ true :: fl) ↔ run_of k (replicate (S c) true ++ fl).
Proof.
  by rewrite (replicate_S_end c), <- (assoc_L (++)).
Qed.

(** The loop answers [True] exactly when the tests of its body succeed
    [stable_checks] times in a row, counting the [c] successes it starts
    with. *)
Lemma wait_loop_true_iff trace l c s :
  0 ≤ c < stable_checks →
  (∃ s', loop trace l c s = Done (Ok true) s') ↔
  run_of (Z.to_nat stable_checks)
    (replicate (Z.to_nat c) true ++ flags_from l (observed deadline trace)).
Proof.
  revert l c s; induction trace as [|q rest IH]; intros l c s Hc; simpl.
  - rewrite app_nil_r. split; [by intros [? ?]|].
    intros H; exfalso; revert H; apply run_of_short; lia.
  - assert (Hno : ¬ run_of (Z.to_nat stable_checks) (replicate (Z.to_nat c) true ++ []))
      by (rewrite app_nil_r; apply run_of_short; lia).
    destruct (now q <? deadline); [|split; [by intros [? ?]|done]].
    destruct (stat q) as [size|e]; simpl.
    + destruct ((size =? l) && (0 <? size)) eqn:Hb.
      * apply andb_true_iff in Hb as [->%Z.eqb_eq _].
        rewrite run_of_grow.
        replace (S (Z.to_nat c)) with (Z.to_nat (c + 1)) by lia.
        destruct (stable_checks <=? c + 1) eqn:Hk.
        -- apply Z.leb_le in Hk. replace (c + 1) with stable_checks by lia.
           split; [intros _; apply run_of_full|eauto].
        -- apply Z.leb_gt in Hk. apply IH; lia.
      * rewrite run_of_broken by lia.
        apply (IH size 0 (sleep interval s)); lia.
    + destruct e; try (split; [by intros [? ?]|done]). apply IH; lia.
Qed.

(** Once the timeout elapses the loop has answered. *)
Lemma wait_loop_timed_out trace l c s :
  timed_out deadline trace = true →
  ∃ b s', loop trace l c s = Done (Ok b) s'.
Proof.
  revert l c s; induction trace as [|q rest IH]; intros l c s; simpl; [done|].
  destruct (now q <? deadline); [|eauto].
  destruct (stat q) as [size|e].
  - intros Ht. destruct ((size =? l) && (0 <? size)); [|by apply IH].
    destruct (stable_checks <=? c + 1); [eauto|by apply IH].
  - destruct e; try done. apply IH.
Qed.

(** Each [True] needs [stable_checks - c] further successful polls, and
    at least one. *)
Lemma wait_loop_true_successes trace l c s s' :
  0 ≤ c →
  loop trace l c s = Done (Ok true) s' →
  stable_checks - c ≤ Z.of_nat (successes trace) ∧ (1 ≤ successes trace)%nat.
Proof.
  revert l c s; induction trace as [|q rest IH]; intros l c s Hc; simpl; [done|].
  destruct (now q <? deadline); [|done].
  destruct (stat q) as [size|e].
  - destruct ((size =? l) && (0 <? size)).
    + destruct (stable_checks <=? c + 1) eqn:Hk.
      * apply Z.leb_le in Hk. lia.
      * intros [? ?]%IH; lia.
    + intros [? ?]%IH; lia.
  - destruct e; try done. by apply IH.
Qed.

(** The time asked of [time.sleep] before a [True]. *)
Lemma wait_loop_true_slept trace l c s s' :
  0 ≤ interval → 0 ≤ c →
  loop trace l c s = Done (Ok true) s' →
  slept s + (stable_checks - c - 1) * interval ≤ slept s'
  ∧ slept s ≤ slept s'.
Proof.
  intros Hi.
  revert l c s; induction trace as [|q rest IH]; intros l c s Hc; simpl; [done|].
  destruct (now q <? deadline); [|done].
  destruct (stat q) as [size|e].
  - destruct ((size =? l) && (0 <? size)).
    + destruct (stable_checks <=? c + 1) eqn:Hk.
      * apply Z.leb_le in Hk. intros [= <-]. nia.
      * intros [? ?]%IH; simpl in *; nia.
    + intros [? ?]%IH; simpl in *; nia.
  - destruct e; try done. intros [? ?]%IH; simpl in *; nia.
Qed.
End Prober.

Lemma flags_from_lookup l sizes j :
  flags_from l sizes !! j = Some true ↔
  ∃ x, sizes !! j = Some x ∧ 0 < x ∧
       match j with O => x = l | S j' => sizes !! j' = Some x end.
Proof.
  revert l j; induction sizes as [|y ys IH]; intros l j; simpl.
  - split; [done|]. by intros (x & ? & _).
  - destruct j as [|j]; simpl.
    + split.
      * intros [= [->%Z.eqb_eq ?%Z.ltb_lt]%andb_true_iff]. eauto.
      * intros (x & [= ->] & ? & ->). f_equal. apply andb_true_iff.
        split; [by apply Z.eqb_eq|by apply Z.ltb_lt].
    + rewrite IH. destruct j; simpl; [|done].
      split; intros (x & ? & ? & ?); exists x; repeat split; congruence.
Qed.

Lemma run_of_stable_run k sizes :
  run_of k (flags_from (-1) sizes) ↔ has_stable_run k sizes.
Proof.
  assert (Hj : ∀ j, flags_from (-1) sizes !! j = Some true ↔ stable_obs sizes j).
  { intros j. rewrite flags_from_lookup. unfold stable_obs. destruct j as [|j].
    - split; [intros (x & ? & ? & ?); lia|by intros (x & j' & ? & _)].
    - split.
      + intros (x & ? & ? & ?). by exists x, j.
      + intros (x & j' & [= <-] & ? & ? & ?). by exists x. }
  split; intros [i Hi]; exists i; intros j Hlt; apply Hj, Hi, Hlt.
Qed.

(** C7, as the code has it.  With [stable_checks >= 1],
    [wait_for_file_ready] returns [True] exactly when, among the sizes read
    by the polls that find the file, [stable_checks] consecutive
    observations are each unchanged from the previous observation and
    greater than zero (a poll that finds the file missing reads no size: it
    neither counts nor breaks the run); an observation of size zero sets
    the counter back to zero; and once the timeout elapses with no such run
    the function returns [False]. *)
Theorem wait_for_file_ready_true_iff_stable_run
    (p : string) (timeout stable_checks interval t0 : Z)
    (trace : list poll) (s : state) :
  1 ≤ stable_checks →
  ((∃ s', wait_for_file_ready p timeout stable_checks interval t0 trace s
          = Done (Ok true) s')
   ↔ has_stable_run (Z.to_nat stable_checks) (observed (t0 + timeout) trace))
  ∧ (timed_out (t0 + timeout) trace = true →
     ¬ has_stable_run (Z.to_nat stable_checks) (observed (t0 + timeout) trace) →
     ∃ s', wait_for_file_ready p timeout stable_checks interval t0 trace s
           = Done (Ok false) s')
  ∧ (∀ q rest l c s1, now q < t0 + timeout → stat q = Ok 0 →
     wait_loop p (t0 + timeout) stable_checks interval (q :: rest) l c s1
     = wait_loop p (t0 + timeout) stable_checks interval rest 0 0 (sleep interval s1)).
Proof.
  intros Hk. unfold wait_for_file_ready.
  assert (Hiff :
    (∃ s', wait_loop p (t0 + timeout) stable_checks interval trace (-1) 0 s
           = Done (Ok true) s')
    ↔ has_stable_run (Z.to_nat stable_checks) (observed (t0 + timeout) trace)).
  { rewrite wait_loop_true_iff by lia. apply run_of_stable_run. }
  split; [exact Hiff|split].
  - intros Ht Hno.
    destruct (wait_loop_timed_out p (t0 + timeout) stable_checks interval
                trace (-1) 0 s Ht) as ([|] & s' & Hrun); [|by eauto].
    exfalso. apply Hno, Hiff. eauto.
  - intros q rest l c s1 Hnow Hstat. simpl.
    apply Z.ltb_lt in Hnow. rewrite Hnow, Hstat.
    by rewrite andb_false_r.
Qed.

Lemma wait_for_file_ready_true_iff_stable_run_witness :
  1 ≤ 3 ∧
  ((∃ s', wait_for_file_ready "/in/a.jpg" 300000 3 500 0 trace_steady empty_state
          = Done (Ok true) s')
   ↔ has_stable_run (Z.to_nat 3) (observed (0 + 300000) trace_steady)).
Proof.
  split; [lia|].
  apply (wait_for_file_ready_true_iff_stable_run
           "/in/a.jpg" 300000 3 500 0 trace_steady empty_state). lia.
Defined.

(** C7, as the spec words it, fails: on the sizes 7, 7, 7, missing, 7 the
    function returns [True] at the fifth poll, although no three
    consecutive polls each read a size unchanged from the previous
    observation: the fourth poll reads none. *)
Lemma missing_poll_inside_stable_run :
  let trace := trace_missing ++ [mkPoll 2000 (Ok 7)] in
  (∃ s', wait_for_file_ready "/in/a.jpg" 300000 3 500 0 trace empty_state
         = Done (Ok true) s')
  ∧ stable_polls (0 + 300000) None trace = [false; true; true; false; true]
  ∧ ¬ run_of 3 (stable_polls (0 + 300000) None trace).
Proof.
  split; [eexists; reflexivity|]. split; [reflexivity|].
  intros [i Hi].
  destruct i as [|[|[|[|i]]]].
  - by specialize (Hi 0%nat ltac:(lia)).
  - by specialize (Hi 3%nat ltac:(lia)).
  - by specialize (Hi 3%nat ltac:(lia)).
  - by specialize (Hi 3%nat ltac:(lia)).
  - by specialize (Hi (S (S (S (S (S i))))) ltac:(lia)).
Qed.

Lemma wait_loop_first_observation p deadline stable_checks interval trace s s' :
  wait_loop p deadline stable_checks interval trace (-1) 0 s = Done (Ok true) s' →
  stable_checks + 1 ≤ Z.of_nat (successes trace)
  ∧ (0 ≤ interval → slept s + stable_checks * interval ≤ slept s').
Proof.
  revert s; induction trace as [|q rest IH]; intros s; simpl; [done|].
  destruct (now q <? deadline); [|done].
  destruct (stat q) as [size|e].
  - assert ((size =? -1) && (0 <? size) = false) as ->.
    { destruct (size =? -1) eqn:E; [|done].
      apply Z.eqb_eq in E as ->. done. }
    intros Hrun. split.
    + apply wait_loop_true_successes in Hrun; lia.
    + intros Hi. apply wait_loop_true_slept in Hrun; simpl in *; lia.
  - destruct e; try done. intros [? Hs]%IH. split; [done|].
    intros Hi. specialize (Hs Hi). simpl in *. lia.
Qed.

(** C10.  [wait_for_file_ready] never returns [True] on fewer than
    [stable_checks + 1] successful size observations: the first one only
    records the size, since the initial last-seen size [-1] is no size of a
    file; and by then it has slept for at least [stable_checks] poll
    intervals. *)
Theorem wait_for_file_ready_needs_one_more_observation
    (p : string) (timeout stable_checks interval t0 : Z)
    (trace : list poll) (s s' : state) :
  wait_for_file_ready p timeout stable_checks interval t0 trace s
  = Done (Ok true) s' →
  stable_checks + 1 ≤ Z.of_nat (successes trace)
  ∧ (0 ≤ interval → slept s + stable_checks * interval ≤ slept s')
  ∧ (∀ q rest c s1, now q < t0 + timeout → (∃ size, stat q = Ok size) →
     ∃ size, wait_loop p (t0 + timeout) stable_checks interval (q :: rest) (-1) c s1
     = wait_loop p (t0 + timeout) stable_checks interval rest size 0 (sleep interval s1)).
Proof.
  intros Hrun. apply wait_loop_first_observation in Hrun as [Hn Hs].
  split; [done|split; [done|]].
  intros q rest c s1 Hnow [size Hstat]. exists size. simpl.
  apply Z.ltb_lt in Hnow. rewrite Hnow, Hstat.
  destruct (size =? -1) eqn:E; [|done].
  apply Z.eqb_eq in E as ->. done.
Qed.

Lemma wait_for_file_ready_needs_one_more_observation_witness :
  wait_for_file_ready "/in/a.jpg" 300000 3 500 0 trace_steady empty_state
  = Done (Ok true) (mkState ∅ [] [] 1500 ∅)
  ∧ 3 + 1 ≤ Z.of_nat (successes trace_steady)
  ∧ (0 ≤ 500 → slept empty_state + 3 * 500 ≤ slept (mkState ∅ [] [] 1500 ∅)).
Proof.
  assert (H : wait_for_file_ready "/in/a.jpg" 300000 3 500 0 trace_steady empty_state
              = Done (Ok true) (mkState ∅ [] [] 1500 ∅)) by reflexivity.
  split; [exact H|].
  destruct (wait_for_file_ready_needs_one_more_observation _ _ _ _ _ _ _ _ H)
    as (Hn & Hs & _).
  split; [exact Hn|exact Hs].
Defined.

Lemma wait_loop_no_hard_error p deadline stable_checks interval trace l c s :
  Forall (fun q => stat q = Raise FileNotFoundError ∨ ∃ size, stat q = Ok size) trace →
  ∀ e s', wait_loop p deadline stable_checks interval trace l c s ≠ Done (Raise e) s'.
Proof.
  intros Hall; revert l c s.
  induction Hall as [|q rest Hq _ IH]; intros l c s e s'; simpl; [done|].
  destruct (now q <? deadline); [|done].
  destruct Hq as [->|[size ->]]; [apply IH|].
  destruct ((size =? l) && (0 <? size)); [|apply IH].
  destruct (stable_checks <=? c + 1); [done|apply IH].
Qed.

(** C6, as the code has it.  While [wait_for_file_ready] is polling, a
    poll that observes a changed size sets the consecutive-stable counter
    to zero and records the new size; a poll that finds the file missing
    leaves the counter and the last-seen size as they are, is logged, and
    the wait goes on; and as long as [stat] fails only with
    [FileNotFoundError], the function never raises. *)
Theorem wait_for_file_ready_poll_missing_or_changed
    (p : string) (timeout stable_checks interval t0 : Z)
    (trace : list poll) (q : poll) (s s1 : state) (l c : Z) :
  wait_for_file_ready p timeout stable_checks interval t0 trace s = Pending l c s1 →
  now q < t0 + timeout →
  (stat q = Raise FileNotFoundError →
   wait_for_file_ready p timeout stable_checks interval t0 (trace ++ [q]) s
   = Pending l c (sleep interval (logging DEBUG (MissingWhileWaiting p) s1)))
  ∧ (∀ size, stat q = Ok size → size ≠ l →
     wait_for_file_ready p timeout stable_checks interval t0 (trace ++ [q]) s
     = Pending size 0 (sleep interval s1))
  ∧ (∀ trace',
     Forall (fun q => stat q = Raise FileNotFoundError ∨ ∃ size, stat q = Ok size) trace' →
     ∀ e s', wait_for_file_ready p timeout stable_checks interval t0 trace' s
             ≠ Done (Raise e) s').
Proof.
  unfold wait_for_file_ready. intros Hrun Hnow%Z.ltb_lt.
  split; [|split].
  - intros Hstat. rewrite wait_loop_app, Hrun. simpl. by rewrite Hnow, Hstat.
  - intros size Hstat Hne. rewrite wait_loop_app, Hrun. simpl.
    rewrite Hnow, Hstat. apply Z.eqb_neq in Hne. by rewrite Hne.
  - intros trace' Hall. by apply wait_loop_no_hard_error.
Qed.

Lemma wait_for_file_ready_poll_missing_or_changed_witness :
  wait_for_file_ready "/in/a.jpg" 300000 3 500 0
    [mkPoll 0 (Ok 7); mkPoll 500 (Ok 7); mkPoll 1000 (Ok 7)] empty_state
  = Pending 7 2 (mkState ∅ [] [] 1500 ∅)
  ∧ 1500 < 0 + 300000
  ∧ wait_for_file_ready "/in/a.jpg" 300000 3 500 0
      ([mkPoll 0 (Ok 7); mkPoll 500 (Ok 7); mkPoll 1000 (Ok 7)]
         ++ [mkPoll 1500 (Raise FileNotFoundError)]) empty_state
    = Pending 7 2 (sleep 500 (logging DEBUG (MissingWhileWaiting "/in/a.jpg")
                                (mkState ∅ [] [] 1500 ∅))).
Proof.
  assert (H : wait_for_file_ready "/in/a.jpg" 300000 3 500 0
                [mkPoll 0 (Ok 7); mkPoll 500 (Ok 7); mkPoll 1000 (Ok 7)] empty_state
              = Pending 7 2 (mkState ∅ [] [] 1500 ∅)) by reflexivity.
  assert (Hn : now (mkPoll 1500 (Raise FileNotFoundError)) < 0 + 300000) by (simpl; lia).
  split; [exact H|split; [lia|]].
  exact (proj1 (wait_for_file_ready_poll_missing_or_changed
                  _ _ _ _ _ _ (mkPoll 1500 (Raise FileNotFoundError)) _ _ _ _ H Hn)
               eq_refl).
Defined.

(** C6, as the spec words it, fails: after two stable checks a poll that
    finds the file missing leaves the counter at 2, not at zero, so a
    single further unchanged observation makes the function return
    [True]. *)
Lemma missing_poll_does_not_reset_counter :
  (∃ s', wait_for_file_ready "/in/a.jpg" 300000 3 500 0 trace_missing empty_state
         = Pending 7 2 s')
  ∧ (∃ s', wait_for_file_ready "/in/a.jpg" 300000 3 500 0
             (trace_missing ++ [mkPoll 2000 (Ok 7)]) empty_state
           = Done (Ok true) s')
  ∧ ¬ (∀ trace q l c s', stat q = Raise FileNotFoundError → now q < 0 + 300000 →
       wait_for_file_ready "/in/a.jpg" 300000 3 500 0 (trace ++ [q]) empty_state
       = Pending l c s' → c = 0).
Proof.
  split; [eexists; reflexivity|split; [eexists; reflexivity|]].
  intros H.
  specialize (H [mkPoll 0 (Ok 7); mkPoll 500 (Ok 7); mkPoll 1000 (Ok 7)]
                (mkPoll 1500 (Raise FileNotFoundError)) 7 2 _
                eq_refl ltac:(simpl; lia) eq_refl).
  discriminate H.
Qed.

(** ** The converters *)

Lemma exists_logging l m p s : exists_ p (logging l m s) = exists_ p s.
Proof. done. Qed.

Lemma exists_record_call k p s : exists_ p (record_call k s) = exists_ p s.
Proof. done. Qed.

Lemma exists_false_lookup p s : exists_ p s = false → fs s !! p = None.
Proof. unfold exists_. by destruct (fs s !! p). Qed.

(** X23.  When the transcoder exits with a nonzero status and its captured
    stderr is ASCII text (which decodes), [convert_video_to_mp4] logs an
    error carrying that text (stripped), removes whatever the tool left at
    the destination, and returns: no file is at the destination and the
    filesystem is as it was before the call. *)
Theorem convert_video_nonzero_exit_cleans_up
    (env : Env) (src dest_dir ffmpeg video_crf video_preset : string) (s : state)
    (returncode : Z) (stderr : string) (written : option string) :
  let output_path := joinpath dest_dir (stem src +:+ ".mp4") in
  let cmd := ffmpeg_cmd src output_path ffmpeg video_crf video_preset in
  exists_ output_path s = false →
  spawn env cmd (fs s) = Exited returncode stderr written →
  is_ascii stderr = true →
  returncode ≠ 0 →
  ∃ s', convert_video_to_mp4 env src dest_dir ffmpeg video_crf video_preset s
        = (Ok tt, s')
        ∧ log s' = log s ++ [ (DEBUG, RunningFfmpeg cmd);
                              (ERROR, FfmpegFailed src (strip stderr)) ]
        ∧ calls s' = calls s ++ [CallSubprocess cmd]
        ∧ fs s' !! output_path = None
        ∧ fs s' = fs s.
Proof.
  intros output_path cmd Hout Hspawn _ Hrc.
  unfold convert_video_to_mp4. fold output_path. rewrite Hout.
  change [ffmpeg; "-y"; "-i"; src; "-c:v"; "libx264"; "-preset"; video_preset;
          "-crf"; video_crf; "-c:a"; "aac"; "-b:a"; "192k"; output_path] with cmd.
  unfold subprocess_run. simpl fs. rewrite Hspawn.
  apply Z.eqb_neq in Hrc. rewrite Hrc.
  replace (List.last cmd EmptyString) with output_path by done.
  apply exists_false_lookup in Hout.
  destruct written as [data|]; simpl.
  - unfold exists_, unlink; simpl. rewrite lookup_insert_eq.
    eexists; split; [done|]; simpl.
    rewrite <- (assoc_L (++)), lookup_delete_eq, delete_insert_id by done. done.
  - unfold exists_; simpl. rewrite Hout.
    eexists; split; [done|]; simpl.
    by rewrite <- (assoc_L (++)).
Qed.

Lemma convert_video_nonzero_exit_cleans_up_witness :
  exists_ "/out/videos/a.mp4" (state_of fs_two_videos) = false
  ∧ is_ascii "invalid codec
" = true
  ∧ 1 ≠ 0
  ∧ ∃ s', convert_video_to_mp4 env_invalid_codec "/in/a.mov" "/out/videos"
            "ffmpeg" "23" "medium" (state_of fs_two_videos) = (Ok tt, s')
          ∧ log s' = [ (DEBUG, RunningFfmpeg
                          (ffmpeg_cmd "/in/a.mov" "/out/videos/a.mp4" "ffmpeg" "23" "medium"));
                       (ERROR, FfmpegFailed "/in/a.mov" "invalid codec") ]
          ∧ fs s' !! "/out/videos/a.mp4" = None.
Proof.
  split; [reflexivity|split; [reflexivity|split; [lia|]]].
  destruct (convert_video_nonzero_exit_cleans_up env_invalid_codec
              "/in/a.mov" "/out/videos" "ffmpeg" "23" "medium" (state_of fs_two_videos)
              1 "invalid codec
" (Some "partial") eq_refl eq_refl eq_refl ltac:(lia))
    as (s' & Hrun & Hlog & _ & Hout & _).
  exists s'. split; [exact Hrun|split; [exact Hlog|exact Hout]].
Defined.

(** C8 fails on the code: when the transcoder exits with status 1 and
    what it wrote to stderr does not decode, [subprocess.run] raises
    [UnicodeDecodeError], which [convert_video_to_mp4] does not catch: no
    error is logged, the exception passes to the caller, and the partial
    output stays at the destination. *)
Lemma undecodable_stderr_leaves_partial_output :
  let r := convert_video_to_mp4 env_undecodable "/in/a.mov" "/out/videos"
             "ffmpeg" "23" "medium" (state_of fs_two_videos) in
  r.1 = Raise UnicodeDecodeError
  ∧ fs r.2 !! "/out/videos/a.mp4" = Some (File "partial")
  ∧ log r.2 = [ (DEBUG, RunningFfmpeg
                   (ffmpeg_cmd "/in/a.mov" "/out/videos/a.mp4" "ffmpeg" "23" "medium")) ].
Proof. vm_compute. done. Qed.

(** An existing destination: the converter logs and returns at once. *)
Lemma convert_image_existing env src dest_dir s :
  exists_ (joinpath dest_dir (stem src +:+ ".png")) s = true →
  convert_image_to_png env src dest_dir s
  = (Ok tt, logging INFO (ImageOutputExists (joinpath dest_dir (stem src +:+ ".png"))) s).
Proof. intros H. unfold convert_image_to_png. by rewrite H. Qed.

Lemma convert_video_existing env src dest_dir ffmpeg crf preset s :
  exists_ (joinpath dest_dir (stem src +:+ ".mp4")) s = true →
  convert_video_to_mp4 env src dest_dir ffmpeg crf preset s
  = (Ok tt, logging INFO (VideoOutputExists (joinpath dest_dir (stem src +:+ ".mp4"))) s).
Proof. intros H. unfold convert_video_to_mp4. by rewrite H. Qed.

Lemma ensure_directory_existing d s :
  exists_ d s = true → ensure_directory d s = (Ok tt, s).
Proof. intros H. unfold ensure_directory. by rewrite H. Qed.

Lemma already_converted_fs c s s' p :
  fs s' = fs s → already_converted c s' p = already_converted c s p.
Proof. intros H. unfold already_converted, is_file, exists_. by rewrite H. Qed.

Lemma process_existing_file_already_converted c env p s :
  already_converted c s p = true →
  ∃ s' added,
    process_existing_file c env p s = (Ok tt, s')
    ∧ fs s' = fs s ∧ calls s' = calls s
    ∧ log s' = log s ++ added ∧ forallb is_skip_record added = true.
Proof.
  unfold already_converted, process_existing_file, destination.
  destruct (is_file p s); [|intros _; exists s, []; by rewrite app_nil_r].
  destruct (bool_decide (lower (suffix p) ∈ image_exts c)) eqn:Hi; simpl.
  - intros [Hd Ho]%andb_true_iff.
    unfold bind, exec. rewrite ensure_directory_existing by done.
    rewrite convert_image_existing by done.
    eexists _, [_; _]; split; [done|]; simpl.
      split; [done|split; [done|split]]; [by rewrite <- (assoc_L (++))|done].
  - destruct (bool_decide (lower (suffix p) ∈ video_exts c)) eqn:Hv; simpl.
    + intros [Hd Ho]%andb_true_iff.
      unfold bind, exec. rewrite ensure_directory_existing by done.
      rewrite convert_video_existing by done.
      eexists _, [_; _]; split; [done|]; simpl.
      split; [done|split; [done|split]]; [by rewrite <- (assoc_L (++))|done].
    + intros _; exists s, []; by rewrite app_nil_r.
Qed.

Lemma for_each_already_converted c env l s :
  forallb (already_converted c s) l = true →
  ∃ s' added,
    for_each (process_existing_file c env) l s = (Ok tt, s')
    ∧ fs s' = fs s ∧ calls s' = calls s
    ∧ log s' = log s ++ added ∧ forallb is_skip_record added = true.
Proof.
  revert s; induction l as [|p l IH]; intros s; simpl.
  - intros _; exists s, []; by rewrite app_nil_r.
  - intros [Hp Hl]%andb_true_iff.
    destruct (process_existing_file_already_converted c env p s Hp)
      as (s1 & a1 & Hrun & Hfs & Hcalls & Hlog & Ha1).
    unfold bind. rewrite Hrun.
    destruct (IH s1) as (s2 & a2 & Hrun2 & Hfs2 & Hcalls2 & Hlog2 & Ha2).
    { apply forallb_forall; intros q Hq.
      rewrite (already_converted_fs c s s1 q Hfs).
      by apply (proj1 (forallb_forall _ _) Hl). }
    exists s2, (a1 ++ a2). rewrite Hrun2. repeat split; try congruence.
    + by rewrite Hlog2, Hlog, <- (assoc_L (++)).
    + rewrite forallb_app. by rewrite Ha1, Ha2.
Qed.

Lemma process_existing_files_already_converted c env s :
  fs s !! input_dir c = Some Dir →
  forallb (already_converted c s) (sorted (entries (input_dir c) s)) = true →
  ∃ s' added,
    process_existing_files c env s = (Ok tt, s')
    ∧ calls s' = calls s ∧ fs s' = fs s
    ∧ log s' = log s ++ added ∧ forallb is_skip_record added = true.
Proof.
  intros Hd H. unfold process_existing_files, bind, iterdir. rewrite Hd.
  destruct (for_each_already_converted c env _ s H)
    as (s' & added & ? & ? & ? & ? & ?).
  by exists s', added.
Qed.

(** C3, as the spec words it, fails: a second start-up pass over an
    unchanged input directory converts again whatever the first pass failed
    to convert.  Here [/in/a.jpg] cannot be identified as an image; each
    pass calls Pillow on it, and the second pass logs no skip. *)
Lemma second_pass_retries_failed_conversion :
  let s1 := (process_existing_files example_config env_invalid_codec
               (state_of fs_empty_image)).2 in
  let s2 := (process_existing_files example_config env_invalid_codec s1).2 in
  entries "/in" s1 = entries "/in" (state_of fs_empty_image)
  ∧ calls s1 = [CallImage "/in/a.jpg" "/out/images/a.png"]
  ∧ calls s2 = [CallImage "/in/a.jpg" "/out/images/a.png";
                CallImage "/in/a.jpg" "/out/images/a.png"]
  ∧ drop (length (log s1)) (log s2)
    = [ (INFO, ProcessingExistingFile "a.jpg");
        (ERROR, CannotIdentifyImage "/in/a.jpg") ].
Proof. vm_compute. done. Qed.

(** C9, as the code has it.  When the transcoder binary cannot be found
    (starting it raises [FileNotFoundError]), [convert_video_to_mp4] logs
    one error record for the file at hand, so one for every such file and
    not one in all, writes nothing, and returns normally: no exception
    reaches the caller, so neither the start-up pass nor the thread of the
    file ends abnormally. *)
Theorem convert_video_binary_not_found
    (env : Env) (src dest_dir ffmpeg video_crf video_preset : string) (s : state) :
  let output_path := joinpath dest_dir (stem src +:+ ".mp4") in
  let cmd := ffmpeg_cmd src output_path ffmpeg video_crf video_preset in
  exists_ output_path s = false →
  spawn env cmd (fs s) = SpawnRaised FileNotFoundError →
  ∃ s', convert_video_to_mp4 env src dest_dir ffmpeg video_crf video_preset s
        = (Ok tt, s')
        ∧ log s' = log s ++ [ (DEBUG, RunningFfmpeg cmd); (ERROR, FfmpegBinaryNotFound) ]
        ∧ fs s' = fs s
        ∧ in_progress s' = in_progress s.
Proof.
  intros output_path cmd Hout Hspawn.
  unfold convert_video_to_mp4. fold output_path. rewrite Hout.
  change [ffmpeg; "-y"; "-i"; src; "-c:v"; "libx264"; "-preset"; video_preset;
          "-crf"; video_crf; "-c:a"; "aac"; "-b:a"; "192k"; output_path] with cmd.
  unfold subprocess_run. simpl fs. rewrite Hspawn.
  eexists; split; [done|]; simpl.
  by rewrite <- (assoc_L (++)).
Qed.

Lemma convert_video_binary_not_found_witness :
  exists_ "/out/videos/a.mp4" (state_of fs_two_videos) = false
  ∧ ∃ s', convert_video_to_mp4 env_no_ffmpeg "/in/a.mov" "/out/videos"
            "ffmpeg" "23" "medium" (state_of fs_two_videos) = (Ok tt, s')
          ∧ log s' = [ (DEBUG, RunningFfmpeg
                          (ffmpeg_cmd "/in/a.mov" "/out/videos/a.mp4" "ffmpeg" "23" "medium"));
                       (ERROR, FfmpegBinaryNotFound) ]
          ∧ fs s' = fs_two_videos.
Proof.
  split; [reflexivity|].
  destruct (convert_video_binary_not_found env_no_ffmpeg
              "/in/a.mov" "/out/videos" "ffmpeg" "23" "medium" (state_of fs_two_videos)
              eq_refl eq_refl)
    as (s' & Hrun & Hlog & Hfs & _).
  exists s'. split; [exact Hrun|split; [exact Hlog|exact Hfs]].
Defined.

(** C9, as the spec words it, fails: the missing binary is not reported
    once but once for every video; a start-up pass over two videos logs the
    error twice. *)
Lemma binary_not_found_is_logged_per_file :
  let s' := (process_existing_files example_config env_no_ffmpeg
               (state_of fs_two_videos)).2 in
  sorted (entries "/in" (state_of fs_two_videos)) = ["/in/a.mov"; "/in/b.mov"]
  ∧ filter (fun r => is_binary_not_found r = true) (log s')
    = [ (ERROR, FfmpegBinaryNotFound); (ERROR, FfmpegBinaryNotFound) ].
Proof. vm_compute. done. Qed.

(** ** The in-flight set and the clock are left alone by the converters *)


Lemma keeps_bind {A B} (m : M A) (k : A → M B) :
  keeps_tracker m → (∀ a, keeps_tracker (k a)) → keeps_tracker (bind m k).
Proof.
  intros Hm Hk s. unfold bind. specialize (Hm s).
  destruct (m s) as [[a|e] s1]; simpl in *; [|done].
  destruct (Hk a s1) as [-> ->]. done.
Qed.

Lemma keeps_logging l m : keeps_tracker (exec (logging l m)).
Proof. by intros s. Qed.

Lemma keeps_ensure_directory d : keeps_tracker (ensure_directory d).
Proof.
  intros s. unfold ensure_directory.
  destruct (negb (exists_ d s)); [|done].
  by destruct (mkdir _ d (fs s)).
Qed.

Lemma keeps_unlink q : keeps_tracker (unlink q).
Proof. intros s. unfold unlink. by destruct (fs s !! q) as [[]|]. Qed.

Lemma keeps_subprocess_run env cmd : keeps_tracker (subprocess_run env cmd).
Proof.
  intros s. unfold subprocess_run.
  destruct (spawn env cmd _) as [e|rc err [data|]|rc [data|]]; simpl; try done;
    by destruct (rc =? 0).
Qed.

Lemma keeps_convert_image env src d : keeps_tracker (convert_image_to_png env src d).
Proof.
  intros s. unfold convert_image_to_png.
  destruct (exists_ _ s); [done|].
  destruct (pillow env _ _ _) as [png|e [data|]]; simpl; try done; by destruct e.
Qed.

Lemma keeps_convert_video env src d bin crf preset :
  keeps_tracker (convert_video_to_mp4 env src d bin crf preset).
Proof.
  intros s. unfold convert_video_to_mp4.
  destruct (exists_ _ s); [done|].
  match goal with |- context [subprocess_run env ?cmd ?s0] =>
    pose proof (keeps_subprocess_run env cmd s0) as H;
    destruct (subprocess_run env cmd s0) as [[err|e] s1] end; simpl in *.
  - by destruct (nonempty err).
  - destruct e; try done.
    match goal with |- context [if exists_ ?q ?s0 then _ else _] =>
      destruct (exists_ q s0); [|done];
      pose proof (keeps_unlink q s0) as Hu;
      destruct (unlink q s0) as [r s2]; simpl in *;
      destruct Hu as [-> ->]; exact H end.
Qed.


Lemma keeps_process_body c env q ready : keeps_tracker (process_body c env q ready).
Proof.
  unfold process_body. destruct (negb ready); [apply keeps_logging|].
  repeat case_bool_decide;
    auto using keeps_bind, keeps_ensure_directory, keeps_convert_image,
      keeps_convert_video, keeps_logging.
Qed.



Lemma wait_loop_in_progress p deadline k interval trace l c s :
  match wait_loop p deadline k interval trace l c s with
  | Done _ s' | Pending _ _ s' => in_progress s' = in_progress s
  end.
Proof.
  revert l c s; induction trace as [|q rest IH]; intros l c s; simpl; [done|].
  destruct (now q <? deadline); [|done].
  destruct (stat q) as [size|e].
  - destruct ((size =? l) && (0 <? size)).
    + destruct (k <=? c + 1); [done|].
      specialize (IH l (c + 1) (sleep interval s)).
      by destruct (wait_loop _ _ _ _ rest _ _ _).
    + specialize (IH size 0 (sleep interval s)).
      by destruct (wait_loop _ _ _ _ rest _ _ _).
  - destruct e; try done.
    specialize (IH l c (sleep interval (logging DEBUG (MissingWhileWaiting p) s))).
    by destruct (wait_loop _ _ _ _ rest _ _ _).
Qed.

(** ** The per-path task *)

(** C2.  Whenever [_process_path] finishes, on whatever exit (converted,
    skipped, failed, not stabilised, or an exception passing through), the
    path is out of the in-flight set and no other entry was touched; the
    task is unfinished only while the stability wait is still polling, and
    it does finish once the timeout of the wait elapses. *)
Theorem process_path_always_releases
    (c : ConversionConfig) (env : Env) (t0 : Z) (trace : list poll)
    (p : string) (s : state) :
  match _process_path c env t0 trace p s with
  | Some (r, s') =>
      (p ∉ in_progress s') ∧ (in_progress s' = in_progress s ∖ {[p]})
  | None => ∃ l n s1, wait_for_file_ready p 300000 3 500 t0 trace s = Pending l n s1
  end
  ∧ (timed_out (t0 + 300000) trace = true →
     is_Some (_process_path c env t0 trace p s)).
Proof.
  unfold _process_path, wait_for_file_ready. split.
  - pose proof (wait_loop_in_progress p (t0 + 300000) 3 500 trace (-1) 0 s) as Hw.
    destruct (wait_loop _ _ _ _ trace _ _ _) as [r s1|l n s1]; [|by eauto].
    unfold try_finally, release, discard.
    destruct r as [ready|e].
    + pose proof (keeps_process_body c env p ready s1) as [Hk _].
      destruct (process_body c env p ready s1) as [r' s2]; simpl in *.
      rewrite Hk, Hw. split; [|done].
      apply not_elem_of_difference; right. by apply elem_of_singleton.
    + simpl. rewrite Hw. split; [|done].
      apply not_elem_of_difference; right. by apply elem_of_singleton.
  - intros Ht.
    destruct (wait_loop_timed_out p (t0 + 300000) 3 500 trace (-1) 0 s Ht)
      as (b & s' & ->). done.
Qed.

(** ** At most one task per path *)

Lemma initial_invariant : invariant initial.
Proof. by split. Qed.

(** Thread [i] moves from [k] to [k'], possibly taking or leaving the
    lock; the set is not touched. *)
Lemma invariant_move σ i p k k' lk' :
  invariant σ → threads σ !! i = Some (mkThread p k) →
  (holding k' = true → lk' = Some i) →
  (lk' = lock σ ∨ holding k = true ∨ lock σ = None) →
  (claims k' = true → claims k = true) →
  (entered k' = true → entered k = true) →
  (k' = SchedAdding → p ∉ tracker σ) →
  invariant (mkSystem (tracker σ) lk' (set_thread i p k' (threads σ))).
Proof.
  intros Hinv Hi Hhold Hlock Hclaims Hentered Hadding. unfold set_thread.
  split; simpl.
  - intros j th [(<- & <- & _)|[Hne Hj]]%list_lookup_insert_Some Hh; [auto|].
    pose proof (inv_lock σ Hinv j th Hj Hh) as Hlj.
    destruct Hlock as [->|[Hk|Hnone]]; [done| |congruence].
    pose proof (inv_lock σ Hinv i _ Hi Hk). congruence.
  - intros j j' th th'
      [(<- & <- & _)|[Hne Hj]]%list_lookup_insert_Some
      [(<- & <- & _)|[Hne' Hj']]%list_lookup_insert_Some Hc Hc' Hp; simpl in *.
    + done.
    + eapply (inv_claim σ Hinv _ _ _ _ Hi Hj'); auto.
    + eapply (inv_claim σ Hinv _ _ _ _ Hj Hi); auto.
    + exact (inv_claim σ Hinv _ _ _ _ Hj Hj' Hc Hc' Hp).
  - intros j th [(<- & <- & _)|[Hne Hj]]%list_lookup_insert_Some He; simpl in *.
    + apply (inv_entered σ Hinv _ _ Hi); auto.
    + exact (inv_entered σ Hinv _ _ Hj He).
  - intros j th [(<- & <- & _)|[Hne Hj]]%list_lookup_insert_Some He; simpl in *.
    + auto.
    + exact (inv_adding σ Hinv _ _ Hj He).
Qed.

(** A new thread appears at [k]. *)
Lemma invariant_spawn σ p k :
  invariant σ →
  holding k = false → k ≠ SchedAdding →
  (entered k = true → p ∈ tracker σ) →
  (claims k = true → ∀ j th, threads σ !! j = Some th →
     claims (th_pc th) = true → th_path th ≠ p) →
  invariant (mkSystem (tracker σ) (lock σ) (threads σ ++ [mkThread p k])).
Proof.
  intros Hinv Hhold Hadding Hentered Hclaims. split; simpl.
  - intros j th [[_ Hj]|[-> <-]]%lookup_snoc_Some Hh; simpl in *; [|congruence].
    exact (inv_lock σ Hinv j th Hj Hh).
  - intros j j' th th'
      [[Hlt Hj]|[-> <-]]%lookup_snoc_Some
      [[Hlt' Hj']|[-> <-]]%lookup_snoc_Some Hc Hc' Hp; simpl in *.
    + exact (inv_claim σ Hinv _ _ _ _ Hj Hj' Hc Hc' Hp).
    + by destruct (Hclaims Hc' j th Hj Hc).
    + by destruct (Hclaims Hc j' th' Hj' Hc').
    + done.
  - intros j th [[_ Hj]|[-> <-]]%lookup_snoc_Some He; simpl in *; [|auto].
    exact (inv_entered σ Hinv _ _ Hj He).
  - intros j th [[_ Hj]|[-> <-]]%lookup_snoc_Some He; simpl in *; [|done].
    exact (inv_adding σ Hinv _ _ Hj He).
Qed.

(** [self._in_progress.add(path)], under the lock. *)
Lemma invariant_add σ i p :
  invariant σ → threads σ !! i = Some (mkThread p SchedAdding) →
  invariant (mkSystem ({[p]} ∪ tracker σ) (lock σ)
               (set_thread i p SchedUnlockStart (threads σ))).
Proof.
  intros Hinv Hi. unfold set_thread.
  pose proof (inv_lock σ Hinv i _ Hi eq_refl) as Hli.
  pose proof (inv_adding σ Hinv i _ Hi eq_refl) as Hnotin. simpl in Hnotin.
  assert (Hother : ∀ j th, threads σ !! j = Some th →
            claims (th_pc th) = true → th_path th = p → j = i).
  { intros j th Hj Hc Hp.
    destruct (entered (th_pc th)) eqn:He.
    - pose proof (inv_entered σ Hinv j th Hj He). congruence.
    - assert (holding (th_pc th) = true) as Hh by (by destruct (th_pc th)).
      pose proof (inv_lock σ Hinv j th Hj Hh). congruence. }
  split; simpl.
  - intros j th [(<- & <- & _)|[Hne Hj]]%list_lookup_insert_Some Hh; [done|].
    exact (inv_lock σ Hinv j th Hj Hh).
  - intros j j' th th'
      [(<- & <- & _)|[Hne Hj]]%list_lookup_insert_Some
      [(<- & <- & _)|[Hne' Hj']]%list_lookup_insert_Some Hc Hc' Hp; simpl in *.
    + done.
    + symmetry. by apply (Hother j' th').
    + by apply (Hother j th).
    + exact (inv_claim σ Hinv _ _ _ _ Hj Hj' Hc Hc' Hp).
  - intros j th [(<- & <- & _)|[Hne Hj]]%list_lookup_insert_Some He; simpl in *.
    + apply elem_of_union_l. by apply elem_of_singleton.
    + apply elem_of_union_r. exact (inv_entered σ Hinv _ _ Hj He).
  - intros j th [(<- & <- & _)|[Hne Hj]]%list_lookup_insert_Some He; simpl in *.
    + done.
    + assert (holding (th_pc th) = true) as Hh by (by rewrite He).
      pose proof (inv_lock σ Hinv j th Hj Hh). congruence.
Qed.

(** [self._in_progress.discard(path)], under the lock. *)
Lemma invariant_discard σ i p :
  invariant σ → threads σ !! i = Some (mkThread p TaskLocked) →
  invariant (mkSystem (discard p (tracker σ)) (lock σ)
               (set_thread i p TaskUnlock (threads σ))).
Proof.
  intros Hinv Hi. unfold set_thread, discard.
  pose proof (inv_lock σ Hinv i _ Hi eq_refl) as Hli.
  split; simpl.
  - intros j th [(<- & <- & _)|[Hne Hj]]%list_lookup_insert_Some Hh; [done|].
    exact (inv_lock σ Hinv j th Hj Hh).
  - intros j j' th th'
      [(<- & <- & _)|[Hne Hj]]%list_lookup_insert_Some
      [(<- & <- & _)|[Hne' Hj']]%list_lookup_insert_Some Hc Hc' Hp; simpl in *.
    + done.
    + by eapply (inv_claim σ Hinv _ _ _ _ Hi Hj').
    + by eapply (inv_claim σ Hinv _ _ _ _ Hj Hi).
    + exact (inv_claim σ Hinv _ _ _ _ Hj Hj' Hc Hc' Hp).
  - intros j th [(<- & <- & _)|[Hne Hj]]%list_lookup_insert_Some He; simpl in *.
    + done.
    + apply elem_of_difference. split; [by apply (inv_entered σ Hinv _ _ Hj)|].
      intros Hp%elem_of_singleton. apply Hne.
      eapply (inv_claim σ Hinv _ _ _ _ Hi Hj); simpl; [done| |done].
      by destruct (th_pc th).
  - intros j th [(<- & <- & _)|[Hne Hj]]%list_lookup_insert_Some He; simpl in *.
    + done.
    + intros [Hin _]%elem_of_difference. exact (inv_adding σ Hinv _ _ Hj He Hin).
Qed.

Lemma step_invariant σ a σ' :
  invariant σ → step σ a = Some σ' → invariant σ'.
Proof.
  intros Hinv Hstep. destruct a as [p|i choice]; simpl in Hstep.
  { injection Hstep as <-. by apply invariant_spawn. }
  destruct (threads σ !! i) as [[p k]|] eqn:Hi; [|done].
  destruct k.
  - (* _should_ignore *)
    injection Hstep as <-.
    apply (invariant_move σ i p SchedStart); auto; by destruct choice.
  - (* with self._lock: acquire *)
    destruct (lock σ) eqn:Hlock; [done|]. injection Hstep as <-.
    apply (invariant_move σ i p SchedWantLock); auto; done.
  - (* if path in self._in_progress *)
    injection Hstep as <-.
    apply (invariant_move σ i p SchedLocked); auto;
      case_bool_decide; try done;
      intros _; exact (inv_lock σ Hinv i _ Hi eq_refl).
  - (* return, leaving the with block *)
    injection Hstep as <-.
    apply (invariant_move σ i p SchedUnlockDrop); auto; done.
  - (* self._in_progress.add(path) *)
    injection Hstep as <-. by apply invariant_add.
  - (* leaving the with block *)
    injection Hstep as <-.
    apply (invariant_move σ i p SchedUnlockStart); auto; done.
  - (* threading.Thread(...).start() *)
    injection Hstep as <-.
    apply (invariant_spawn
             (mkSystem (tracker σ) (lock σ) (set_thread i p Finished (threads σ)))
             p TaskRunning); simpl; try done.
    + apply (invariant_move σ i p SchedStartThread); auto; done.
    + intros _. by apply (inv_entered σ Hinv i _ Hi).
    + intros _ j th [(<- & <- & _)|[Hne Hj]]%list_lookup_insert_Some Hc Hp;
        simpl in *; [done|].
      apply Hne. by apply (inv_claim σ Hinv i j _ th Hi Hj).
  - (* the try block *)
    injection Hstep as <-.
    apply (invariant_move σ i p TaskRunning); auto; by destruct choice.
  - (* finally: with self._lock: acquire *)
    destruct (lock σ) eqn:Hlock; [done|]. injection Hstep as <-.
    apply (invariant_move σ i p TaskWantLock); auto; done.
  - (* self._in_progress.discard(path) *)
    injection Hstep as <-. by apply invariant_discard.
  - (* leaving the with block *)
    injection Hstep as <-.
    apply (invariant_move σ i p TaskUnlock); auto; done.
  - done.
Qed.

Lemma steps_invariant l σ σ' :
  invariant σ → steps σ l = Some σ' → invariant σ'.
Proof.
  revert σ; induction l as [|a l IH]; intros σ Hinv; simpl.
  - by intros [= <-].
  - destruct (step σ a) as [σ1|] eqn:Hstep; [|done].
    apply IH. by eapply step_invariant.
Qed.

Lemma reachable_invariant σ : reachable σ → invariant σ.
Proof. intros [l Hl]. eapply steps_invariant; [apply initial_invariant|done]. Qed.

(** A call of [_schedule] that nothing interrupts does, between taking
    and leaving the lock, what [check_then_add] does, and starts a task
    exactly when the path was added. *)
Lemma schedule_thread_uninterrupted σ i p :
  threads σ !! i = Some (mkThread p SchedWantLock) → lock σ = None →
  let '(added, t) := check_then_add p (tracker σ) in
  ∃ σ', steps σ (replicate (if added then 5 else 3)%nat (Step i false)) = Some σ'
        ∧ tracker σ' = t ∧ lock σ' = None
        ∧ threads σ' = set_thread i p Finished (threads σ)
                       ++ (if added then [mkThread p TaskRunning] else []).
Proof.
  intros Hi Hlock. pose proof (lookup_lt_Some _ _ _ Hi) as Hlt.
  unfold check_then_add.
  assert (Hset : ∀ k l, length l = length (threads σ) →
            set_thread i p k l !! i = Some (mkThread p k)).
  { intros k l Hl. apply list_lookup_insert_eq. lia. }
  assert (Hlen : ∀ k l, length (set_thread i p k l) = length l).
  { intros k l. apply length_insert. }
  assert (Hagain : ∀ k k' l, set_thread i p k (set_thread i p k' l) = set_thread i p k l).
  { intros k k' l. apply list_insert_insert_eq. }
  case_bool_decide as Hin; eexists; cbn [replicate steps].
  - unfold step at 1. rewrite Hi, Hlock. cbn [tracker lock threads].
    unfold step at 1. cbn [tracker lock threads]. rewrite Hset by done.
    rewrite bool_decide_true by done.
    unfold step at 1. cbn [tracker lock threads].
    rewrite Hset by (by rewrite Hlen).
    rewrite !Hagain, app_nil_r. done.
  - unfold step at 1. rewrite Hi, Hlock. cbn [tracker lock threads].
    unfold step at 1. cbn [tracker lock threads]. rewrite Hset by done.
    rewrite bool_decide_false by done.
    unfold step at 1. cbn [tracker lock threads].
    rewrite Hset by (by rewrite Hlen).
    unfold step at 1. cbn [tracker lock threads].
    rewrite Hset by (by rewrite !Hlen).
    unfold step at 1. cbn [tracker lock threads].
    rewrite Hset by (by rewrite !Hlen).
    rewrite !Hagain. done.
Qed.

Lemma deliver_dropped c p n s :
  p ∈ in_progress s → deliver c (replicate n p) s = (s, []).
Proof.
  intros Hin. induction n as [|n IH]; simpl; [done|].
  unfold _schedule, check_then_add.
  destruct (_should_ignore c p s); rewrite ?bool_decide_true by done;
    by rewrite IH.
Qed.

Lemma deliver_same_path c p n s :
  _should_ignore c p s = false → p ∉ in_progress s →
  deliver c (replicate (S n) p) s
  = (set_in_progress ({[p]} ∪ in_progress s) s, [p]).
Proof.
  intros Hig Hnotin. simpl. unfold _schedule, check_then_add.
  rewrite Hig, bool_decide_false by done.
  rewrite deliver_dropped; [done|].
  simpl. apply elem_of_union_l. by apply elem_of_singleton.
Qed.

(** C1.  In every state the handler can reach, with whatever interleaving
    of event deliveries and tasks, two distinct threads never run
    [_process_path] for the same path, and two distinct threads are never
    both inside a [with self._lock] block (where the membership test and
    the insertion are made); and of [n+1] events for one path that pass
    the filter while the path is not in flight, delivered before any
    release, the first starts the only task and the [n] others are
    dropped. *)
Theorem at_most_one_task_per_path
    (c : ConversionConfig) (p : string) (s : state) (n : nat) :
  _should_ignore c p s = false →
  p ∉ in_progress s →
  (∀ σ, reachable σ →
     (∀ i j thi thj,
        threads σ !! i = Some thi → threads σ !! j = Some thj →
        in_task (th_pc thi) = true → in_task (th_pc thj) = true →
        th_path thi = th_path thj → i = j)
     ∧ (∀ i j thi thj,
        threads σ !! i = Some thi → threads σ !! j = Some thj →
        holding (th_pc thi) = true → holding (th_pc thj) = true → i = j))
  ∧ deliver c (replicate (S n) p) s
    = (set_in_progress ({[p]} ∪ in_progress s) s, [p]).
Proof.
  intros Hig Hnotin. split; [|by apply deliver_same_path].
  intros σ Hinv%reachable_invariant. split.
  - intros i j thi thj Hi Hj Hti Htj Hp.
    apply (inv_claim σ Hinv i j thi thj Hi Hj); [| |done].
    + by destruct (th_pc thi).
    + by destruct (th_pc thj).
  - intros i j thi thj Hi Hj Hhi Hhj.
    pose proof (inv_lock σ Hinv i thi Hi Hhi).
    pose proof (inv_lock σ Hinv j thj Hj Hhj). congruence.
Qed.

Lemma at_most_one_task_per_path_witness :
  _should_ignore example_config "/in/a.mov" (state_of fs_two_videos) = false
  ∧ ("/in/a.mov" ∉ in_progress (state_of fs_two_videos))
  ∧ deliver example_config (replicate 3 "/in/a.mov") (state_of fs_two_videos)
    = (set_in_progress ({["/in/a.mov"]} ∪ ∅) (state_of fs_two_videos), ["/in/a.mov"]).
Proof.
  assert (H1 : _should_ignore example_config "/in/a.mov" (state_of fs_two_videos) = false)
    by (vm_compute; reflexivity).
  assert (H2 : "/in/a.mov" ∉ in_progress (state_of fs_two_videos))
    by (simpl; apply not_elem_of_empty).
  split; [exact H1|split; [exact H2|]].
  exact (proj2 (at_most_one_task_per_path example_config "/in/a.mov"
                  (state_of fs_two_videos) 2 H1 H2)).
Defined.

(** Three ways out of the task, each leaving the in-flight set without the
    path: the file never stabilises; [stat] fails with a permission error,
    which passes through the task; the file converts. *)
Example process_path_exits :
  let s := set_in_progress {["/in/a.jpg"]} (state_of fs_empty_image) in
  (∃ s', _process_path example_config env_converts 0 trace_empty_file "/in/a.jpg" s
         = Some (Ok tt, s') ∧ in_progress s' = ∅)
  ∧ (∃ s', _process_path example_config env_converts 0
             [mkPoll 0 (Raise (OSError "PermissionError"))] "/in/a.jpg" s
           = Some (Raise (OSError "PermissionError"), s') ∧ in_progress s' = ∅)
  ∧ (∃ s', _process_path example_config env_converts 0 trace_steady "/in/a.jpg" s
           = Some (Ok tt, s') ∧ in_progress s' = ∅
           ∧ calls s' = [CallImage "/in/a.jpg" "/out/images/a.png"]).
Proof. repeat split; eexists; vm_compute; done. Qed.

(** ** The start-up pass *)

#[global] Instance path_le_total : Total path_le.
Proof. intros a b. apply String.leb_total. Qed.

Lemma ensure_directory_calls d s :
  calls (ensure_directory d s).2 = calls s ∧ log (ensure_directory d s).2 = log s.
Proof.
  unfold ensure_directory. destruct (negb (exists_ d s)); [|done].
  by destruct (mkdir _ d (fs s)).
Qed.





(** ** Hidden files *)

(** On the live path a name with a leading dot is never scheduled. *)
Lemma hidden_file_never_scheduled c p s ev :
  startswith_dot (name p) = true →
  _should_ignore c p s = true
  ∧ _schedule c p s = (s, None)
  ∧ (src_path ev = p → on_created c ev s = (s, None) ∧ on_modified c ev s = (s, None)).
Proof.
  intros Hdot.
  assert (Hig : _should_ignore c p s = true).
  { unfold _should_ignore. rewrite Hdot. by destruct (_ && _). }
  assert (Hs : _schedule c p s = (s, None)) by (unfold _schedule; by rewrite Hig).
  split; [done|split; [done|]].
  intros <-. unfold on_created, on_modified. by destruct (negb _).
Qed.

(** C5 fails on the start-up pass: [/in/.tmp.jpg], which [_should_ignore]
    rejects, is converted by [process_existing_files]. *)
Lemma startup_pass_converts_hidden_file :
  _should_ignore example_config "/in/.tmp.jpg" (state_of fs_hidden) = true
  ∧ ∃ s', process_existing_files example_config env_converts (state_of fs_hidden)
          = (Ok tt, s')
          ∧ calls s' = [CallImage "/in/.tmp.jpg" "/out/images/.tmp.png"]
          ∧ fs s' !! "/out/images/.tmp.png" = Some (File "PNG").
Proof. split; [|eexists]; vm_compute; done. Qed.

(** * Further properties of the code *)

(** ** Strings and paths *)

Lemma lower_ascii_idemp a : lower_ascii (lower_ascii a) = lower_ascii a.
Proof. by destruct a as [[] [] [] [] [] [] [] []]. Qed.

Lemma lower_ascii_dot a : Ascii.eqb (lower_ascii a) "." = Ascii.eqb a ".".
Proof. by destruct a as [[] [] [] [] [] [] [] []]. Qed.


Lemma lower_idemp s : lower (lower s) = lower s.
Proof. induction s as [|a s IH]; simpl; [done|]. by rewrite lower_ascii_idemp, IH. Qed.


Lemma lower_startswith_dot s : startswith_dot (lower s) = startswith_dot s.
Proof. destruct s as [|a s]; simpl; [done|]. apply lower_ascii_dot. Qed.








Lemma append_cons a s t : String a s +:+ t = String a (s +:+ t).
Proof. done. Qed.










(** ** normalise_extensions *)

Lemma elem_of_normalise_fold acc exts e :
  e ∈ foldl normalise_extension acc exts ↔
  e ∈ acc ∨ ∃ x, x ∈ exts ∧ nonempty x = true
                 ∧ e = lower (if negb (startswith_dot x) then "." +:+ x else x).
Proof.
  revert acc; induction exts as [|y exts IH]; intros acc; simpl.
  - split; [by left|]. intros [?|(x & Hx & _)]; [done|]. by apply elem_of_nil in Hx.
  - rewrite IH. unfold normalise_extension at 1.
    destruct (nonempty y) eqn:Hy; simpl.
    + rewrite elem_of_union, elem_of_singleton. split.
      * intros [[->|?]|(x & Hx & ?)]; [right; exists y|by left|right; exists x].
        -- split; [by left|done].
        -- split; [by right|done].
      * intros [?|(x & [->|Hx]%elem_of_cons & Hne & ->)];
          [by left; right|by left; left|right; by exists x].
    + split.
      * intros [?|(x & Hx & ?)]; [by left|right; exists x].
        split; [by right|done].
      * intros [?|(x & [->|Hx]%elem_of_cons & Hne & ->)];
          [by left|congruence|right; by exists x].
Qed.

Lemma normalised_member exts e :
  e ∈ normalise_extensions exts → startswith_dot e = true ∧ lower e = e.
Proof.
  unfold normalise_extensions. rewrite elem_of_normalise_fold.
  intros [?%elem_of_empty|(x & _ & _ & ->)]; [done|].
  rewrite lower_startswith_dot, lower_idemp. split; [|done].
  by destruct (startswith_dot x) eqn:Hx.
Qed.

(** X3.  Every extension [normalise_extensions] returns starts with a dot
    and is lower-case, an empty string contributes nothing, and
    normalising the result again gives the same set. *)
Theorem normalise_extensions_normal (exts : list string) :
  (∀ e, e ∈ normalise_extensions exts → startswith_dot e = true ∧ lower e = e)
  ∧ normalise_extensions (EmptyString :: exts) = normalise_extensions exts
  ∧ normalise_extensions (elements (normalise_extensions exts))
    = normalise_extensions exts.
Proof.
  split; [apply normalised_member|split; [done|]].
  apply set_eq; intros e. unfold normalise_extensions at 1.
  rewrite elem_of_normalise_fold. split.
  - intros [?%elem_of_empty|(x & Hx%elem_of_elements & _ & ->)]; [done|].
    destruct (normalised_member exts x Hx) as [Hdot Hlow].
    rewrite Hdot; simpl. by rewrite Hlow.
  - intros He. right. exists e.
    destruct (normalised_member exts e He) as [Hdot Hlow].
    split; [by apply elem_of_elements|]. rewrite Hdot; simpl. rewrite Hlow.
    split; [by destruct e|done].
Qed.

(** ** The filesystem under ensure_directory and the converters *)

Lemma os_mkdir_Ok p f f' :
  os_mkdir p f = Ok f' → f !! p = None ∧ f' = <[p := Dir]> f.
Proof.
  unfold os_mkdir. destruct (f !! p); [done|].
  destruct (f !! parent p) as [[]|]; try done. by intros [= <-].
Qed.

Lemma mkdir_Ok fuel p f f' :
  mkdir fuel p f = Ok f' →
  f ⊆ f' ∧ f' !! p = Some Dir
  ∧ ∀ q n, f' !! q = Some n → f !! q = Some n ∨ n = Dir.
Proof.
  assert (Hos : ∀ (p : string) (f f' : gmap string node), os_mkdir p f = Ok f' →
            f ⊆ f' ∧ f' !! p = Some Dir
            ∧ ∀ q n, f' !! q = Some n → f !! q = Some n ∨ n = Dir).
  { intros p0 f0 f0' [Hnone ->]%os_mkdir_Ok. split; [by apply insert_subseteq|].
    split; [apply lookup_insert_eq|].
    intros q n [[_ <-]|[_ ?]]%lookup_insert_Some; auto. }
  assert (Hexists : ∀ (e : exn) (p : string) (f f' : gmap string node),
            match f !! p with Some Dir => Ok f | _ => Raise e end = Ok f' →
            f ⊆ f' ∧ f' !! p = Some Dir
            ∧ ∀ q n, f' !! q = Some n → f !! q = Some n ∨ n = Dir).
  { intros e p0 f0 f0'. destruct (f0 !! p0) as [[]|] eqn:Hp; try done.
    intros [= <-]. auto. }
  revert p f f'; induction fuel as [|fuel IH]; intros p f f'; simpl.
  - destruct (os_mkdir p f) as [f1|e] eqn:Hmk.
    + intros [= <-]. by apply Hos.
    + destruct e; try done; apply Hexists.
  - destruct (os_mkdir p f) as [f1|e] eqn:Hmk.
    + intros [= <-]. by apply Hos.
    + destruct e; try apply Hexists.
      destruct (String.eqb (parent p) p); [done|].
      destruct (mkdir fuel (parent p) f) as [f1|e] eqn:Hrec; [|done].
      intros Hlast.
      destruct (IH _ _ _ Hrec) as (Hsub1 & _ & Hnew1).
      destruct (Hos _ _ _ Hlast) as (Hsub2 & Hp & Hnew2).
      split; [by etrans|split; [done|]].
      intros q n [?|?]%Hnew2; [|by right]. by apply Hnew1.
Qed.

Lemma ensure_directory_cases (p : string) (s : state) :
  match ensure_directory p s with
  | (Ok _, s') =>
      exists_ p s' = true
      ∧ fs s ⊆ fs s'
      ∧ (∀ q n, fs s' !! q = Some n → fs s !! q = Some n ∨ n = Dir)
      ∧ (exists_ p s = true → s' = s)
      ∧ ensure_directory p s' = (Ok tt, s')
      ∧ log s' = log s ∧ calls s' = calls s
  | (Raise _, s') => s' = s
  end.
Proof.
  unfold ensure_directory at 1. destruct (exists_ p s) eqn:Hex; simpl.
  - repeat split; try done; [by auto|]. unfold ensure_directory. by rewrite Hex.
  - destruct (mkdir _ p (fs s)) as [f'|e] eqn:Hmk; [|done].
    destruct (mkdir_Ok _ _ _ _ Hmk) as (Hsub & Hp & Hnew).
    assert (Hex' : exists_ p (set_fs f' s) = true).
    { unfold exists_; simpl. by rewrite Hp. }
    repeat split; try done. unfold ensure_directory. by rewrite Hex'.
Qed.


Lemma keeps_files_ret {A} (a : A) : keeps_files (ret a).
Proof. by intros s. Qed.

Lemma keeps_files_bind {A B} (m : M A) (k : A → M B) :
  keeps_files m → (∀ a, keeps_files (k a)) → keeps_files (bind m k).
Proof.
  intros Hm Hk s. unfold bind. specialize (Hm s).
  destruct (m s) as [[a|e] s1]; simpl in *; [|done].
  etrans; [exact Hm|apply Hk].
Qed.

Lemma keeps_files_logging l m : keeps_files (exec (logging l m)).
Proof. by intros s. Qed.

Lemma keeps_files_ensure_directory d : keeps_files (ensure_directory d).
Proof.
  intros s. pose proof (ensure_directory_cases d s) as H.
  destruct (ensure_directory d s) as [[[]|e] s']; simpl.
  - by destruct H as (_ & ? & _).
  - by rewrite H.
Qed.

Lemma keeps_files_convert_image env src d :
  keeps_files (convert_image_to_png env src d).
Proof.
  intros s. unfold convert_image_to_png.
  destruct (exists_ _ s) eqn:Hex; [done|].
  destruct (pillow env _ _ _) as [png|e partial]; simpl.
  - by apply insert_subseteq, exists_false_lookup.
  - apply exists_false_lookup in Hex.
    destruct e, partial; simpl; try done; by apply insert_subseteq.
Qed.

Lemma keeps_files_convert_video env src d bin crf preset :
  keeps_files (convert_video_to_mp4 env src d bin crf preset).
Proof.
  intros s. unfold convert_video_to_mp4.
  destruct (exists_ _ s) eqn:Hex; [done|].
  unfold subprocess_run. simpl fs. simpl List.last.
  pose proof (exists_false_lookup _ _ Hex) as Hnone.
  destruct (spawn env _ _) as [e|rc err written|rc written].
  - destruct e; simpl; try done. unfold exists_; simpl. by rewrite Hnone.
  - destruct (rc =? 0).
    + destruct (nonempty err), written; simpl; try done; by apply insert_subseteq.
    + destruct written as [data|]; simpl.
      * unfold exists_, unlink; simpl. rewrite lookup_insert_eq. simpl.
        by rewrite delete_insert_id.
      * unfold exists_; simpl. by rewrite Hnone.
  - destruct written; simpl; [by apply insert_subseteq|done].
Qed.

Lemma keeps_files_for_each {A} (body : A → M unit) l :
  (∀ x, keeps_files (body x)) → keeps_files (for_each body l).
Proof.
  intros Hb. induction l as [|x l IH]; simpl; [apply keeps_files_ret|].
  apply keeps_files_bind; auto.
Qed.

Lemma keeps_files_process_body c env q ready :
  keeps_files (process_body c env q ready).
Proof.
  unfold process_body. destruct (negb ready); [apply keeps_files_logging|].
  repeat case_bool_decide;
    auto using keeps_files_bind, keeps_files_ensure_directory,
      keeps_files_convert_image, keeps_files_convert_video, keeps_files_logging.
Qed.

Lemma keeps_files_process_existing_file c env q :
  keeps_files (process_existing_file c env q).
Proof.
  intros s. unfold process_existing_file.
  destruct (is_file q s); [|done].
  destruct (_ || _); [|done].
  apply keeps_files_bind; [apply keeps_files_logging|intros _].
  case_bool_decide;
    auto using keeps_files_bind, keeps_files_ensure_directory,
      keeps_files_convert_image, keeps_files_convert_video.
Qed.

Lemma wait_loop_fs p deadline k interval trace l c s :
  match wait_loop p deadline k interval trace l c s with
  | Done _ s' | Pending _ _ s' => fs s' = fs s ∧ calls s' = calls s
  end.
Proof.
  revert l c s; induction trace as [|q rest IH]; intros l c s; simpl; [done|].
  destruct (now q <? deadline); [|done].
  destruct (stat q) as [size|e].
  - destruct ((size =? l) && (0 <? size)).
    + destruct (k <=? c + 1); [done|].
      specialize (IH l (c + 1) (sleep interval s)).
      by destruct (wait_loop _ _ _ _ rest _ _ _).
    + specialize (IH size 0 (sleep interval s)).
      by destruct (wait_loop _ _ _ _ rest _ _ _).
  - destruct e; try done.
    specialize (IH l c (sleep interval (logging DEBUG (MissingWhileWaiting p) s))).
    by destruct (wait_loop _ _ _ _ rest _ _ _).
Qed.

(** X5.  A converter never removes or overwrites what is in the
    filesystem, the source included: every entry present before the call is
    present and unchanged after it, whatever the back end does; and no path
    other than the destination is touched. *)
Theorem converters_keep_existing_files
    (env : Env) (src dest_dir ffmpeg crf preset : string) (s : state) :
  let s_png := (convert_image_to_png env src dest_dir s).2 in
  let s_mp4 := (convert_video_to_mp4 env src dest_dir ffmpeg crf preset s).2 in
  (fs s ⊆ fs s_png
   ∧ ∀ q, q ≠ joinpath dest_dir (stem src +:+ ".png") → fs s_png !! q = fs s !! q)
  ∧ (fs s ⊆ fs s_mp4
     ∧ ∀ q, q ≠ joinpath dest_dir (stem src +:+ ".mp4") → fs s_mp4 !! q = fs s !! q).
Proof.
  intros s_png s_mp4. split; split.
  - apply keeps_files_convert_image.
  - intros q Hq. unfold s_png, convert_image_to_png.
    destruct (exists_ _ s); [done|].
    destruct (pillow env _ _ _) as [png|e [data|]]; simpl;
      try destruct e; simpl; try done; by rewrite lookup_insert_ne.
  - apply keeps_files_convert_video.
  - intros q Hq. unfold s_mp4, convert_video_to_mp4.
    destruct (exists_ _ s) eqn:Hex; [done|].
    unfold subprocess_run. simpl fs. simpl List.last.
    pose proof (exists_false_lookup _ _ Hex) as Hnone.
    destruct (spawn env _ _) as [e|rc err written|rc written].
    + destruct e; simpl; try done. unfold exists_; simpl. by rewrite Hnone.
    + destruct (rc =? 0).
      * destruct (nonempty err), written; simpl; try done; by rewrite lookup_insert_ne.
      * destruct written as [data|]; simpl.
        -- unfold exists_, unlink; simpl. rewrite lookup_insert_eq. simpl.
           by rewrite lookup_delete_ne, lookup_insert_ne.
        -- unfold exists_; simpl. by rewrite Hnone.
    + destruct written; simpl; [by rewrite lookup_insert_ne|done].
Qed.

(** X6.  Neither the start-up pass nor the task of a path ever removes or
    changes an existing entry of the filesystem: sources stay in place and
    earlier outputs are kept, also when a step raises. *)
Theorem pipeline_keeps_existing_files
    (c : ConversionConfig) (env : Env) (s : state) :
  fs s ⊆ fs (process_existing_files c env s).2
  ∧ ∀ t0 trace p r s',
      _process_path c env t0 trace p s = Some (r, s') → fs s ⊆ fs s'.
Proof.
  split.
  - unfold process_existing_files.
    apply keeps_files_bind.
    + intros s0. unfold iterdir. by destruct (fs s0 !! input_dir c) as [[]|].
    + intros paths. apply keeps_files_for_each, keeps_files_process_existing_file.
  - intros t0 trace p r s'. unfold _process_path, wait_for_file_ready.
    pose proof (wait_loop_fs p (t0 + 300000) 3 500 trace (-1) 0 s) as Hw.
    destruct (wait_loop _ _ _ _ trace _ _ _) as [r0 s1|]; [|done].
    destruct Hw as [Hfs _]. unfold try_finally.
    destruct r0 as [ready|e].
    + pose proof (keeps_files_process_body c env p ready s1) as Hb.
      destruct (process_body c env p ready s1) as [r1 s2]; simpl in *.
      intros [= _ <-]. simpl. by rewrite <- Hfs.
    + intros [= _ <-]. simpl. by rewrite Hfs.
Qed.

(** X7.  The first conversion wins: once a source has been converted,
    converting it again, or converting another source with the same stem,
    calls no back end and leaves the output of the first as it is. *)
Theorem first_conversion_wins
    (env : Env) (src1 src2 dest_dir : string) (s : state) (png : string) :
  let output_path := joinpath dest_dir (stem src1 +:+ ".png") in
  stem src2 = stem src1 →
  exists_ output_path s = false →
  pillow env src1 output_path (fs s) = ImageSaved png →
  let s1 := (convert_image_to_png env src1 dest_dir s).2 in
  let s2 := (convert_image_to_png env src2 dest_dir s1).2 in
  fs s1 = <[output_path := File png]> (fs s)
  ∧ calls s1 = calls s ++ [CallImage src1 output_path]
  ∧ fs s2 = fs s1 ∧ calls s2 = calls s1
  ∧ log s2 = log s ++ [ (INFO, ConvertedImage (name src1) (name output_path));
                        (INFO, ImageOutputExists output_path) ].
Proof.
  intros output_path Hstem Hex Hsave s1 s2.
  assert (Hs1 : s1 = logging INFO (ConvertedImage (name src1) (name output_path))
                       (write output_path (Some png)
                          (record_call (CallImage src1 output_path) s))).
  { unfold s1, convert_image_to_png. fold output_path. rewrite Hex.
    simpl fs. by rewrite Hsave. }
  assert (Hex1 : exists_ (joinpath dest_dir (stem src2 +:+ ".png")) s1 = true).
  { rewrite Hstem. fold output_path. rewrite Hs1. unfold exists_; simpl.
    by rewrite lookup_insert_eq. }
  unfold s2. rewrite (convert_image_existing env src2 dest_dir s1 Hex1).
  rewrite Hstem. fold output_path. rewrite Hs1. simpl.
  repeat split; try done. by rewrite <- (assoc_L (++)).
Qed.

Lemma first_conversion_wins_witness :
  stem "/in/a.jpg" = stem "/in/a.bmp"
  ∧ exists_ "/out/images/a.png" (state_of fs_same_stem) = false
  ∧ let s1 := (convert_image_to_png env_copies "/in/a.bmp" "/out/images"
                 (state_of fs_same_stem)).2 in
    let s2 := (convert_image_to_png env_copies "/in/a.jpg" "/out/images" s1).2 in
    fs s1 = <["/out/images/a.png" := File "bmp"]> fs_same_stem
    ∧ fs s2 = fs s1 ∧ calls s2 = calls s1.
Proof.
  split; [reflexivity|split; [reflexivity|]].
  destruct (first_conversion_wins env_copies "/in/a.bmp" "/in/a.jpg" "/out/images"
              (state_of fs_same_stem) "bmp" eq_refl eq_refl eq_refl)
    as (H1 & _ & H2 & H3 & _).
  split; [exact H1|split; [exact H2|exact H3]].
Defined.

(** ** _schedule and the in-flight set *)

Lemma schedule_cases (c : ConversionConfig) (p : string) (s : state) :
  let '(s', started) := _schedule c p s in
  fs s' = fs s ∧ log s' = log s ∧ calls s' = calls s ∧ slept s' = slept s
  ∧ match started with
    | Some q =>
        q = p ∧ _should_ignore c p s = false ∧ (p ∉ in_progress s)
        ∧ in_progress s' = {[p]} ∪ in_progress s
    | None =>
        s' = s ∧ (_should_ignore c p s = true ∨ p ∈ in_progress s)
    end.
Proof.
  unfold _schedule, check_then_add.
  destruct (_should_ignore c p s); [by auto 10|].
  case_bool_decide; simpl; by auto 10.
Qed.

(** X10.  Acquire and release are a round trip: scheduling a path and
    running the thread it starts to completion, if any, leaves the
    in-flight set exactly as it was when the path was not in it, whatever
    happens to the file. *)
Theorem schedule_then_process_restores_set
    (c : ConversionConfig) (env : Env) (t0 : Z) (trace : list poll)
    (p : string) (s : state) (r : result unit) (s' : state) :
  p ∉ in_progress s →
  live_steps c env t0 trace p s = Some (r, s') →
  in_progress s' = in_progress s.
Proof.
  intros Hnotin. unfold live_steps.
  pose proof (schedule_cases c p s) as Hs.
  destruct (_schedule c p s) as [s1 [q|]].
  - destruct Hs as (_ & _ & _ & _ & -> & _ & _ & Hin). intros Hrun.
    unfold _process_path, wait_for_file_ready in Hrun.
    pose proof (wait_loop_in_progress p (t0 + 300000) 3 500 trace (-1) 0 s1) as Hw.
    destruct (wait_loop _ _ _ _ trace _ _ _) as [r0 s2|]; [|done].
    unfold try_finally, release, discard in Hrun.
    assert (Hbody : in_progress
              (match r0 with
               | Ok ready => process_body c env p ready s2
               | Raise e => (Raise e, s2)
               end).2 = in_progress s2).
    { destruct r0 as [ready|e]; [|done]. apply keeps_process_body. }
    destruct (match r0 with Ok _ => _ | Raise _ => _ end) as [r1 s3].
    injection Hrun as _ <-. simpl in *. rewrite Hbody, Hw, Hin.
    apply set_eq; intros x. rewrite elem_of_difference, elem_of_union, !elem_of_singleton.
    split; [by intros [[->|?] ?]|]. intros Hx. split; [by right|congruence].
  - destruct Hs as (_ & _ & _ & _ & -> & _). by intros [= _ <-].
Qed.

Lemma schedule_then_process_restores_set_witness :
  ("/in/a.jpg" ∉ in_progress (state_of fs_same_stem))
  ∧ ∃ s', live_steps example_config env_copies 0 trace_steady "/in/a.jpg"
            (state_of fs_same_stem) = Some (Ok tt, s')
          ∧ in_progress s' = in_progress (state_of fs_same_stem).
Proof.
  assert (Hn : "/in/a.jpg" ∉ in_progress (state_of fs_same_stem))
    by (simpl; apply not_elem_of_empty).
  split; [exact Hn|]. eexists. split; [vm_compute; reflexivity|].
  eapply (schedule_then_process_restores_set example_config env_copies 0 trace_steady
            "/in/a.jpg" (state_of fs_same_stem) (Ok tt) _ Hn).
  vm_compute; reflexivity.
Defined.

Lemma deliver_post c events s :
  let '(s', started) := deliver c events s in
  fs s' = fs s
  ∧ in_progress s' = list_to_set started ∪ in_progress s
  ∧ NoDup started
  ∧ ∀ q, q ∈ started → q ∈ events ∧ (q ∉ in_progress s).
Proof.
  revert s; induction events as [|p rest IH]; intros s; simpl.
  - split; [done|]. split; [by rewrite (left_id_L ∅ (∪))|].
    split; [constructor|]. by intros q ?%elem_of_nil.
  - pose proof (schedule_cases c p s) as Hs.
    destruct (_schedule c p s) as [s1 [q|]].
    + destruct Hs as (Hfs & _ & _ & _ & -> & _ & Hnotin & Hin).
      specialize (IH s1). destruct (deliver c rest s1) as [s2 started].
      destruct IH as (Hfs2 & Hin2 & Hnd & Hel). simpl.
      assert (Hp1 : p ∈ in_progress s1)
        by (rewrite Hin; apply elem_of_union_l; by apply elem_of_singleton).
      split; [congruence|].
      split; [by rewrite Hin2, Hin, (assoc_L (∪)), (comm_L (∪) _ {[p]})|].
      split.
      * constructor; [|done]. intros [_ Hq]%Hel. by apply Hq.
      * intros x [->|Hx]%elem_of_cons; [split; [by left|done]|].
        destruct (Hel x Hx) as [? Hx1]. split; [by right|].
        intros ?. apply Hx1. rewrite Hin. by apply elem_of_union_r.
    + destruct Hs as (_ & _ & _ & _ & -> & _).
      specialize (IH s). destruct (deliver c rest s) as [s2 started].
      destruct IH as (Hfs2 & Hin2 & Hnd & Hel). simpl.
      split; [done|]. split; [done|]. split; [done|].
      intros q Hq. destruct (Hel q Hq). split; [by right|done].
Qed.

(** X11.  A burst of events, delivered before any task finishes, starts
    at most one task per path: the paths of the threads started are
    pairwise distinct, none of them was in flight before, and the set
    afterwards is the set before plus exactly these paths. *)
Theorem burst_starts_each_path_once
    (c : ConversionConfig) (events : list string) (s : state) :
  let '(s', started) := deliver c events s in
  NoDup started
  ∧ (∀ q, q ∈ started → q ∈ events ∧ (q ∉ in_progress s))
  ∧ in_progress s' = list_to_set started ∪ in_progress s.
Proof.
  pose proof (deliver_post c events s) as H.
  destruct (deliver c events s) as [s' started].
  by destruct H as (_ & ? & ? & ?).
Qed.

(** ** More on the stability prober *)

Lemma wait_loop_effects p deadline k interval trace l c s :
  match wait_loop p deadline k interval trace l c s with
  | Done _ s' | Pending _ _ s' =>
      ∃ n m : nat,
        slept s' = slept s + Z.of_nat n * interval
        ∧ log s' = log s ++ replicate m (DEBUG, MissingWhileWaiting p)
        ∧ (m ≤ n ≤ length trace)%nat
  end.
Proof.
  revert l c s; induction trace as [|q rest IH]; intros l c s; simpl.
  { exists O, O. simpl. rewrite app_nil_r. split; [lia|done]. }
  assert (Hstay : ∃ n m : nat,
            slept s = slept s + Z.of_nat n * interval
            ∧ log s = log s ++ replicate m (DEBUG, MissingWhileWaiting p)
            ∧ (m ≤ n ≤ S (length rest))%nat).
  { exists O, O. simpl. rewrite app_nil_r. split; [lia|split; [done|lia]]. }
  assert (Hsleep : ∀ l' c',
    match wait_loop p deadline k interval rest l' c' (sleep interval s) with
    | Done _ s' | Pending _ _ s' =>
        ∃ n m : nat,
          slept s' = slept s + Z.of_nat n * interval
          ∧ log s' = log s ++ replicate m (DEBUG, MissingWhileWaiting p)
          ∧ (m ≤ n ≤ S (length rest))%nat
    end).
  { intros l' c'. specialize (IH l' c' (sleep interval s)).
    destruct (wait_loop _ _ _ _ rest _ _ _);
      destruct IH as (n & m & Hs & Hl & Hb); exists (S n), m; simpl in *;
      (split; [lia|split; [done|lia]]). }
  destruct (now q <? deadline); [|done].
  destruct (stat q) as [size|e].
  - destruct ((size =? l) && (0 <? size)); [|apply Hsleep].
    destruct (k <=? c + 1); [done|apply Hsleep].
  - destruct e; try done.
    specialize (IH l c (sleep interval (logging DEBUG (MissingWhileWaiting p) s))).
    destruct (wait_loop _ _ _ _ rest _ _ _);
      destruct IH as (n & m & Hs & Hl & Hb); exists (S n), (S m); simpl in *;
      (split; [lia|split; [by rewrite Hl, <- (assoc_L (++))|lia]]).
Qed.

(** X12.  Waiting for a file only sleeps and logs: it never changes the
    filesystem, the back-end calls or the in-flight set; the time it asks
    to sleep is a whole number of intervals, at most one per poll; and it
    logs nothing but debug records of the file being missing, no more of
    them than it slept. *)
Theorem wait_for_file_ready_only_sleeps_and_logs
    (p : string) (timeout stable_checks interval t0 : Z)
    (trace : list poll) (s : state) :
  match wait_for_file_ready p timeout stable_checks interval t0 trace s with
  | Done _ s' | Pending _ _ s' =>
      fs s' = fs s ∧ calls s' = calls s ∧ in_progress s' = in_progress s
      ∧ ∃ n m : nat,
          slept s' = slept s + Z.of_nat n * interval
          ∧ log s' = log s ++ replicate m (DEBUG, MissingWhileWaiting p)
          ∧ (m ≤ n ≤ length trace)%nat
  end.
Proof.
  unfold wait_for_file_ready.
  pose proof (wait_loop_fs p (t0 + timeout) stable_checks interval trace (-1) 0 s) as H1.
  pose proof (wait_loop_in_progress p (t0 + timeout) stable_checks interval trace (-1) 0 s) as H2.
  pose proof (wait_loop_effects p (t0 + timeout) stable_checks interval trace (-1) 0 s) as H3.
  destruct (wait_loop _ _ _ _ trace _ _ _); by destruct H1.
Qed.

Lemma wait_loop_settles p deadline k interval size trace l c s :
  0 ≤ c < k → 0 < size →
  Forall (reads deadline size) trace →
  (l = size ∧ k - c ≤ Z.of_nat (length trace)) ∨ k + 1 ≤ Z.of_nat (length trace) →
  ∃ s', wait_loop p deadline k interval trace l c s = Done (Ok true) s'.
Proof.
  intros Hc Hsize Hall. revert l c s Hc.
  induction Hall as [|q rest [Hnow Hstat] _ IH]; intros l c s Hc Hlen; simpl in *.
  { lia. }
  apply Z.ltb_lt in Hnow. rewrite Hnow, Hstat.
  destruct (size =? l) eqn:Heq; simpl.
  - apply Z.eqb_eq in Heq as <-.
    assert ((0 <? size) = true) as -> by (by apply Z.ltb_lt).
    destruct (k <=? c + 1) eqn:Hk; [by eauto|].
    apply Z.leb_gt in Hk. apply IH; lia.
  - apply Z.eqb_neq in Heq. apply IH; lia.
Qed.

(** X13.  However the size moved before, once [stable_checks + 1]
    further polls before the deadline read the same positive size, the wait
    returns [True] (for [stable_checks >= 1]). *)
Theorem wait_for_file_ready_settles
    (p : string) (timeout stable_checks interval t0 size : Z)
    (before after : list poll) (s s1 : state) (l c : Z) :
  1 ≤ stable_checks → 0 < size →
  wait_for_file_ready p timeout stable_checks interval t0 before s = Pending l c s1 →
  0 ≤ c < stable_checks →
  Forall (reads (t0 + timeout) size) after →
  stable_checks + 1 ≤ Z.of_nat (length after) →
  ∃ s', wait_for_file_ready p timeout stable_checks interval t0 (before ++ after) s
        = Done (Ok true) s'.
Proof.
  unfold wait_for_file_ready. intros Hk Hsize Hrun Hc Hall Hlen.
  rewrite wait_loop_app, Hrun. apply (wait_loop_settles _ _ _ _ size); auto.
Qed.

Lemma wait_for_file_ready_settles_witness :
  1 ≤ 3 ∧ 0 < 9
  ∧ wait_for_file_ready "/in/clip.mp4" 300000 3 500 0 trace_growing empty_state
    = Pending 6 0 (mkState ∅ [] [] 1000 ∅)
  ∧ Forall (reads (0 + 300000) 9) trace_settled
  ∧ ∃ s', wait_for_file_ready "/in/clip.mp4" 300000 3 500 0
            (trace_growing ++ trace_settled) empty_state = Done (Ok true) s'.
Proof.
  assert (Hrun : wait_for_file_ready "/in/clip.mp4" 300000 3 500 0 trace_growing empty_state
                 = Pending 6 0 (mkState ∅ [] [] 1000 ∅)) by reflexivity.
  assert (Hall : Forall (reads (0 + 300000) 9) trace_settled).
  { repeat constructor; simpl; lia. }
  split; [lia|split; [lia|split; [exact Hrun|split; [exact Hall|]]]].
  apply (wait_for_file_ready_settles "/in/clip.mp4" 300000 3 500 0 9
           trace_growing trace_settled empty_state (mkState ∅ [] [] 1000 ∅) 6 0
           ltac:(lia) ltac:(lia) Hrun ltac:(lia) Hall ltac:(simpl; lia)).
Defined.

Lemma wait_loop_steady_slept p deadline k interval size trace c s :
  0 ≤ c < k → 0 < size →
  Forall (reads deadline size) trace →
  Z.of_nat (length trace) = k - c →
  ∃ s', wait_loop p deadline k interval trace size c s = Done (Ok true) s'
        ∧ slept s' = slept s + (k - c - 1) * interval ∧ log s' = log s.
Proof.
  intros Hc Hsize Hall. revert c s Hc.
  induction Hall as [|q rest [Hnow Hstat] _ IH]; intros c s Hc Hlen; simpl in *.
  { lia. }
  apply Z.ltb_lt in Hnow. rewrite Hnow, Hstat, Z.eqb_refl.
  assert ((0 <? size) = true) as -> by (by apply Z.ltb_lt). simpl.
  destruct (k <=? c + 1) eqn:Hk.
  - apply Z.leb_le in Hk. exists s. split; [done|split; [|done]].
    replace (k - c - 1) with 0 by lia. lia.
  - apply Z.leb_gt in Hk.
    destruct (IH (c + 1) (sleep interval s)) as (s' & -> & Hs & Hl); [lia..|].
    exists s'. split; [done|]. simpl in *. split; [|done].
    rewrite Hs. ring.
Qed.

(** X14.  The bound on the time to a [True] is reached: for a file that
    shows the same positive size from the first poll on, the wait returns
    [True] at poll [stable_checks + 1], having slept exactly
    [stable_checks] intervals and logged nothing. *)
Theorem wait_for_file_ready_steady_file
    (p : string) (timeout stable_checks interval t0 size : Z)
    (trace : list poll) (s : state) :
  1 ≤ stable_checks → 0 < size →
  Forall (reads (t0 + timeout) size) trace →
  Z.of_nat (length trace) = stable_checks + 1 →
  ∃ s', wait_for_file_ready p timeout stable_checks interval t0 trace s
        = Done (Ok true) s'
        ∧ slept s' = slept s + stable_checks * interval
        ∧ log s' = log s.
Proof.
  unfold wait_for_file_ready. intros Hk Hsize Hall Hlen.
  destruct Hall as [|q rest [Hnow Hstat] Hall]; simpl in *; [lia|].
  apply Z.ltb_lt in Hnow. rewrite Hnow, Hstat.
  assert ((size =? -1) && (0 <? size) = false) as ->.
  { destruct (size =? -1) eqn:E; [|done]. apply Z.eqb_eq in E. lia. }
  destruct (wait_loop_steady_slept p (t0 + timeout) stable_checks interval size
              rest 0 (sleep interval s)) as (s' & -> & Hs & Hl); [lia|done|done|lia|].
  exists s'. split; [done|]. simpl in *. split; [|done].
  rewrite Hs. ring.
Qed.

Lemma wait_for_file_ready_steady_file_witness :
  1 ≤ 3 ∧ 0 < 7
  ∧ Forall (reads (0 + 300000) 7) trace_steady
  ∧ ∃ s', wait_for_file_ready "/in/a.jpg" 300000 3 500 0 trace_steady empty_state
          = Done (Ok true) s'
          ∧ slept s' = slept empty_state + 3 * 500.
Proof.
  assert (Hall : Forall (reads (0 + 300000) 7) trace_steady).
  { repeat constructor; simpl; lia. }
  split; [lia|split; [lia|split; [exact Hall|]]].
  destruct (wait_for_file_ready_steady_file "/in/a.jpg" 300000 3 500 0 7
              trace_steady empty_state) as (s' & Hrun & Hs & _);
    [lia|lia|exact Hall|reflexivity|].
  exists s'. split; [exact Hrun|exact Hs].
Defined.

(** X15.  A file whose size differs at every two successive observations
    is never reported ready, and when the timeout elapses the wait returns
    [False]; so the task of such a file calls no converter. *)
Theorem wait_for_file_ready_changing_file
    (p : string) (timeout stable_checks interval t0 : Z)
    (trace : list poll) (s : state) :
  1 ≤ stable_checks →
  (∀ j x y, observed (t0 + timeout) trace !! j = Some x →
            observed (t0 + timeout) trace !! S j = Some y → x ≠ y) →
  (∀ s', wait_for_file_ready p timeout stable_checks interval t0 trace s
         ≠ Done (Ok true) s')
  ∧ (timed_out (t0 + timeout) trace = true →
     ∃ s', wait_for_file_ready p timeout stable_checks interval t0 trace s
           = Done (Ok false) s').
Proof.
  unfold wait_for_file_ready. intros Hk Hchange.
  assert (Hno : ∀ s', wait_loop p (t0 + timeout) stable_checks interval trace (-1) 0 s
                      ≠ Done (Ok true) s').
  { intros s' Hrun.
    assert (Hex : ∃ s', wait_loop p (t0 + timeout) stable_checks interval trace (-1) 0 s
                        = Done (Ok true) s') by eauto.
    apply wait_loop_true_iff in Hex; [|lia].
    apply run_of_stable_run in Hex as [i Hi].
    destruct (Hi i ltac:(lia)) as (x & j' & -> & Hprev & Hcur & _).
    by apply (Hchange j' x x). }
  split; [done|]. intros Ht.
  destruct (wait_loop_timed_out p (t0 + timeout) stable_checks interval
              trace (-1) 0 s Ht) as ([|] & s' & Hrun); [|by eauto].
  by destruct (Hno s').
Qed.

Lemma wait_for_file_ready_changing_file_witness :
  1 ≤ 3
  ∧ ∃ s', wait_for_file_ready "/in/a.jpg" 1000 3 500 0
            (trace_growing ++ [mkPoll 1000 (Ok 9)]) empty_state = Done (Ok false) s'.
Proof.
  split; [lia|].
  apply (wait_for_file_ready_changing_file "/in/a.jpg" 1000 3 500 0
           (trace_growing ++ [mkPoll 1000 (Ok 9)]) empty_state); [lia| |reflexivity].
  intros [|[|j]] x y; simpl; intros [= <-] Hy; try done.
  injection Hy as <-. lia.
Defined.

(** ** Nothing is left in the set, and the lock never blocks for ever *)

Lemma initial_accounted : accounted initial.
Proof. split; simpl; [by intros p ?%elem_of_empty|done]. Qed.

(** Thread [i] moves from [k] to [k']; the set becomes [tr'], the lock
    [lk']. *)
Lemma accounted_update σ i p k k' tr' lk' :
  accounted σ → threads σ !! i = Some (mkThread p k) →
  (∀ q, q ∈ tr' → (q = p ∧ entered k' = true)
                  ∨ (q ∈ tracker σ ∧ (q = p → entered k = true → entered k' = true))) →
  (holding k' = true ∧ lk' = Some i) ∨ lk' = None
  ∨ (lk' = lock σ ∧ holding k = false) ∨ (lk' = lock σ ∧ holding k' = true) →
  accounted (mkSystem tr' lk' (set_thread i p k' (threads σ))).
Proof.
  intros Hacc Hi Hentries Hlock. unfold set_thread.
  pose proof (lookup_lt_Some _ _ _ Hi) as Hlt.
  assert (Hnew : <[i := mkThread p k']> (threads σ) !! i = Some (mkThread p k'))
    by (by apply list_lookup_insert_eq).
  split; simpl.
  - intros q [[-> He]|[Hq He]]%Hentries; [by exists i, (mkThread p k')|].
    destruct (acc_entry σ Hacc q Hq) as (j & th & Hj & Hp & Hen).
    destruct (decide (j = i)) as [->|Hne].
    + rewrite Hi in Hj. injection Hj as <-. simpl in *.
      exists i, (mkThread p k'). auto.
    + exists j, th. by rewrite list_lookup_insert_ne.
  - intros j Hj.
    assert (Hold : lock σ = Some j → j ≠ i →
              ∃ th, <[i := mkThread p k']> (threads σ) !! j = Some th
                    ∧ holding (th_pc th) = true).
    { intros Hl Hne. destruct (acc_lock σ Hacc j Hl) as (th & ? & ?).
      exists th. by rewrite list_lookup_insert_ne. }
    destruct Hlock as [[Hh ->]|[->|[[-> Hh]|[-> Hh]]]]; [|done| |].
    + injection Hj as <-. by exists (mkThread p k').
    + apply Hold; [done|]. intros ->.
      destruct (acc_lock σ Hacc i Hj) as (th & Hth & Hhold).
      rewrite Hi in Hth. injection Hth as <-. simpl in *. congruence.
    + destruct (decide (j = i)) as [->|Hne]; [by exists (mkThread p k')|by apply Hold].
Qed.

Lemma accounted_arrive σ th :
  accounted σ → accounted (mkSystem (tracker σ) (lock σ) (threads σ ++ [th])).
Proof.
  intros Hacc. split; simpl.
  - intros q Hq. destruct (acc_entry σ Hacc q Hq) as (j & th' & Hj & ? & ?).
    exists j, th'. split; [by apply lookup_app_l_Some|done].
  - intros j Hj. destruct (acc_lock σ Hacc j Hj) as (th' & ? & ?).
    exists th'. split; [by apply lookup_app_l_Some|done].
Qed.

(** [threading.Thread(...).start()]: the claim on the path passes from
    the call of [_schedule] to the thread it starts. *)
Lemma accounted_start σ i p :
  accounted σ → threads σ !! i = Some (mkThread p SchedStartThread) →
  accounted (mkSystem (tracker σ) (lock σ)
               (set_thread i p Finished (threads σ) ++ [mkThread p TaskRunning])).
Proof.
  intros Hacc Hi. unfold set_thread. split; simpl.
  - intros q Hq. destruct (acc_entry σ Hacc q Hq) as (j & th & Hj & Hp & Hen).
    destruct (decide (j = i)) as [->|Hne].
    + rewrite Hi in Hj. injection Hj as <-. simpl in *.
      exists (length (<[i := mkThread p Finished]> (threads σ))),
             (mkThread p TaskRunning).
      split; [|done]. apply lookup_snoc_Some. by right.
    + exists j, th. split; [|done].
      apply lookup_app_l_Some. by rewrite list_lookup_insert_ne.
  - intros j Hj. destruct (acc_lock σ Hacc j Hj) as (th & Hth & Hh).
    exists th. split; [|done]. apply lookup_app_l_Some.
    rewrite list_lookup_insert_ne; [done|]. intros ->.
    rewrite Hi in Hth. injection Hth as <-. done.
Qed.

Lemma step_accounted σ a σ' :
  accounted σ → step σ a = Some σ' → accounted σ'.
Proof.
  intros Hacc Hstep. destruct a as [p|i choice]; simpl in Hstep.
  { injection Hstep as <-. by apply accounted_arrive. }
  destruct (threads σ !! i) as [[p k]|] eqn:Hi; [|done].
  assert (Hsame : ∀ q, q ∈ tracker σ → ∀ k k',
            (entered k = true → entered k' = true) →
            (q = p ∧ entered k' = true)
            ∨ (q ∈ tracker σ ∧ (q = p → entered k = true → entered k' = true))).
  { intros q Hq k0 k0' Hk. right. auto. }
  destruct k.
  - injection Hstep as <-.
    apply (accounted_update σ i p SchedStart);
      [done|done|intros q Hq; by apply Hsame|auto 6].
  - destruct (lock σ) eqn:Hlock; [done|]. injection Hstep as <-.
    apply (accounted_update σ i p SchedWantLock);
      [done|done|intros q Hq; by apply Hsame|auto 6].
  - injection Hstep as <-.
    apply (accounted_update σ i p SchedLocked);
      [done|done|intros q Hq; by apply Hsame|].
    right; right; right. split; [done|]. by case_bool_decide.
  - injection Hstep as <-.
    apply (accounted_update σ i p SchedUnlockDrop);
      [done|done|intros q Hq; by apply Hsame|auto 6].
  - injection Hstep as <-.
    apply (accounted_update σ i p SchedAdding); [done|done| |auto 6].
    intros q [->%elem_of_singleton|Hq]%elem_of_union; [by left|].
    right. split; [done|]. done.
  - injection Hstep as <-.
    apply (accounted_update σ i p SchedUnlockStart);
      [done|done|intros q Hq; by apply Hsame|auto 6].
  - injection Hstep as <-. by apply accounted_start.
  - injection Hstep as <-.
    apply (accounted_update σ i p TaskRunning);
      [done|done|intros q Hq; apply Hsame; [done|by destruct choice]|auto 6].
  - destruct (lock σ) eqn:Hlock; [done|]. injection Hstep as <-.
    apply (accounted_update σ i p TaskWantLock);
      [done|done|intros q Hq; by apply Hsame|auto 6].
  - injection Hstep as <-.
    apply (accounted_update σ i p TaskLocked); [done|done| |auto 6].
    unfold discard. intros q [Hq Hne]%elem_of_difference.
    right. split; [done|]. intros ->. destruct Hne. by apply elem_of_singleton.
  - injection Hstep as <-.
    apply (accounted_update σ i p TaskUnlock);
      [done|done|intros q Hq; by apply Hsame|auto 6].
  - done.
Qed.

Lemma reachable_accounted σ : reachable σ → accounted σ.
Proof.
  intros [l Hl]. revert Hl. generalize initial_accounted. generalize initial.
  induction l as [|a l IH]; intros σ0 Hacc; simpl.
  - by intros [= <-].
  - destruct (step σ0 a) as [σ1|] eqn:Hstep; [|done].
    apply IH. by eapply step_accounted.
Qed.

(** X16.  The in-flight set holds no stale entry: in every state the
    handler can reach, each path of the set is the path of a live thread
    that added it (or of the task started for it) and has not discarded it
    yet; so once every thread has finished, the set is empty and the lock
    is free. *)
Theorem in_flight_set_has_no_stale_entry (σ : system) :
  reachable σ →
  (∀ p, p ∈ tracker σ →
     ∃ i th, threads σ !! i = Some th ∧ th_path th = p ∧ entered (th_pc th) = true)
  ∧ ((∀ i th, threads σ !! i = Some th → th_pc th = Finished) →
     tracker σ = ∅ ∧ lock σ = None).
Proof.
  intros Hacc%reachable_accounted. split; [apply (acc_entry σ Hacc)|].
  intros Hfin. split.
  - apply elem_of_equiv_empty_L. intros p Hp.
    destruct (acc_entry σ Hacc p Hp) as (i & th & Hi & _ & He).
    by rewrite (Hfin i th Hi) in He.
  - destruct (lock σ) as [i|] eqn:Hl; [|done].
    destruct (acc_lock σ Hacc i Hl) as (th & Hi & Hh).
    by rewrite (Hfin i th Hi) in Hh.
Qed.

Lemma in_flight_set_has_no_stale_entry_witness :
  reachable (mkSystem ∅ None [mkThread "/in/a.jpg" Finished;
                              mkThread "/in/a.jpg" Finished])
  ∧ tracker (mkSystem ∅ None [mkThread "/in/a.jpg" Finished;
                              mkThread "/in/a.jpg" Finished]) = ∅.
Proof.
  assert (Hr : reachable (mkSystem ∅ None [mkThread "/in/a.jpg" Finished;
                                           mkThread "/in/a.jpg" Finished])).
  { exists ([Arrive "/in/a.jpg"] ++ replicate 6 (Step 0 false)
              ++ [Step 1 true; Step 1 false; Step 1 false; Step 1 false]).
    vm_compute. reflexivity. }
  split; [exact Hr|].
  apply (in_flight_set_has_no_stale_entry _ Hr).
  intros [|[|i]] th; simpl; intros [= <-]; reflexivity.
Defined.

(** X17.  The lock never blocks the handler for ever: in a reachable
    state, as long as some thread has not finished, some thread can take a
    step; a thread waiting for the lock waits for a thread that is inside
    its [with self._lock] block and can go on. *)
Theorem some_thread_can_step (σ : system) (i : nat) (th : thread) :
  reachable σ →
  threads σ !! i = Some th → th_pc th ≠ Finished →
  ∃ j choice σ', step σ (Step j choice) = Some σ'.
Proof.
  intros Hacc%reachable_accounted Hi Hpc.
  assert (Hheld : ∀ h, lock σ = Some h → ∃ σ', step σ (Step h false) = Some σ').
  { intros h Hl. destruct (acc_lock σ Hacc h Hl) as ([q k] & Hh & Hk).
    simpl. rewrite Hh. destruct k; try done; by eauto. }
  destruct th as [p k]. simpl in Hpc.
  destruct (lock σ) as [h|] eqn:Hl.
  - destruct (Hheld h eq_refl) as [σ' Hs]. by exists h, false, σ'.
  - exists i, false. simpl. rewrite Hi, Hl. destruct k; try done; by eauto.
Qed.

Lemma some_thread_can_step_witness :
  reachable (mkSystem ∅ None [mkThread "/in/a.jpg" SchedWantLock])
  ∧ ∃ j choice σ',
      step (mkSystem ∅ None [mkThread "/in/a.jpg" SchedWantLock]) (Step j choice)
      = Some σ'.
Proof.
  assert (Hr : reachable (mkSystem ∅ None [mkThread "/in/a.jpg" SchedWantLock])).
  { exists [Arrive "/in/a.jpg"; Step 0 false]. vm_compute. reflexivity. }
  split; [exact Hr|].
  apply (some_thread_can_step _ 0 (mkThread "/in/a.jpg" SchedWantLock) Hr eq_refl).
  discriminate.
Defined.

(** ** The start-up pass and the task, end to end *)

Lemma for_each_noop {A} (body : A → M unit) (l : list A) (s : state) :
  (∀ x, x ∈ l → body x s = (Ok tt, s)) → for_each body l s = (Ok tt, s).
Proof.
  induction l as [|x l IH]; intros Hb; simpl; [done|].
  unfold bind. rewrite (Hb x) by (by left).
  apply IH. intros y Hy. apply Hb. by right.
Qed.

(** X18.  The start-up pass on a directory with nothing to convert (no
    entries, or only directories and files whose extension is not
    configured) changes nothing and logs nothing; on a missing input
    directory it raises [FileNotFoundError], again without any effect. *)
Theorem startup_pass_nothing_to_convert
    (c : ConversionConfig) (env : Env) (s : state) :
  (fs s !! input_dir c = None →
   process_existing_files c env s = (Raise FileNotFoundError, s))
  ∧ (fs s !! input_dir c = Some Dir →
     (∀ q, q ∈ entries (input_dir c) s →
           is_file q s = false
           ∨ ((lower (suffix q) ∉ image_exts c) ∧ (lower (suffix q) ∉ video_exts c))) →
     process_existing_files c env s = (Ok tt, s)).
Proof.
  unfold process_existing_files, bind, iterdir. split; [by intros ->|].
  intros -> Hnone. apply for_each_noop. intros q Hq.
  unfold sorted in Hq. rewrite merge_sort_Permutation in Hq.
  unfold process_existing_file.
  destruct (Hnone q Hq) as [->|[Hi Hv]]; [done|].
  destruct (is_file q s); [|done].
  by rewrite !bool_decide_false.
Qed.

Lemma not_elem_of_by_decide (x : string) (X : gset string) :
  bool_decide (x ∈ X) = false → x ∉ X.
Proof. apply bool_decide_eq_false. Qed.

Lemma startup_pass_nothing_to_convert_witness :
  fs (state_of fs_nothing_to_do) !! input_dir example_config = Some Dir
  ∧ process_existing_files example_config env_converts (state_of fs_nothing_to_do)
    = (Ok tt, state_of fs_nothing_to_do).
Proof.
  assert (Hd : fs (state_of fs_nothing_to_do) !! input_dir example_config = Some Dir)
    by (vm_compute; reflexivity).
  split; [exact Hd|].
  apply (proj2 (startup_pass_nothing_to_convert example_config env_converts
                  (state_of fs_nothing_to_do)) Hd).
  intros q Hq.
  assert (Hq' : q ∈ ["/in/old.jpg"; "/in/notes.txt"]).
  { revert Hq. assert (entries (input_dir example_config) (state_of fs_nothing_to_do)
                       = ["/in/old.jpg"; "/in/notes.txt"]) as -> by (vm_compute; reflexivity).
    done. }
  apply elem_of_cons in Hq' as [->|Hq'].
  - left. vm_compute. reflexivity.
  - apply list_elem_of_singleton in Hq' as ->. right.
    split; apply not_elem_of_by_decide; vm_compute; reflexivity.
Defined.

(** X19.  A file that does not stabilise is never handed to a converter:
    when the timeout of the wait elapses without three consecutive stable
    observations, the task returns normally, having changed no file and
    called no back end; it logs the warning last and leaves the set. *)
Theorem unstable_file_is_not_converted
    (c : ConversionConfig) (env : Env) (t0 : Z) (trace : list poll)
    (p : string) (s : state) :
  timed_out (t0 + 300000) trace = true →
  ¬ has_stable_run 3 (observed (t0 + 300000) trace) →
  ∃ s', _process_path c env t0 trace p s = Some (Ok tt, s')
        ∧ fs s' = fs s ∧ calls s' = calls s
        ∧ last (log s') = Some (WARNING, DidNotStabilize p)
        ∧ p ∉ in_progress s'.
Proof.
  intros Ht Hno. unfold _process_path, wait_for_file_ready.
  pose proof (wait_loop_fs p (t0 + 300000) 3 500 trace (-1) 0 s) as Hfs.
  destruct (wait_loop_timed_out p (t0 + 300000) 3 500 trace (-1) 0 s Ht)
    as (b & s1 & Hrun).
  destruct b.
  { exfalso. apply Hno. apply (run_of_stable_run (Z.to_nat 3)).
    apply (wait_loop_true_iff p (t0 + 300000) 3 500 trace (-1) 0 s); [lia|eauto]. }
  rewrite Hrun in *. destruct Hfs as [Hfs Hcalls].
  eexists. split; [done|]. simpl.
  split; [done|split; [done|split; [by rewrite last_snoc|]]].
  unfold discard. apply not_elem_of_difference; right. by apply elem_of_singleton.
Qed.

Lemma unstable_file_is_not_converted_witness :
  timed_out (0 + 300000) trace_empty_file = true
  ∧ ¬ has_stable_run 3 (observed (0 + 300000) trace_empty_file)
  ∧ ∃ s', _process_path example_config env_converts 0 trace_empty_file "/in/a.jpg"
            (state_of fs_empty_image) = Some (Ok tt, s')
          ∧ calls s' = [].
Proof.
  assert (Ht : timed_out (0 + 300000) trace_empty_file = true) by reflexivity.
  assert (Hno : ¬ has_stable_run 3 (observed (0 + 300000) trace_empty_file)).
  { intros [i Hi]. destruct (Hi i ltac:(lia)) as (x & j' & -> & _ & Hcur & _).
    by destruct j'. }
  split; [exact Ht|split; [exact Hno|]].
  destruct (unstable_file_is_not_converted example_config env_converts 0
              trace_empty_file "/in/a.jpg" (state_of fs_empty_image) Ht Hno)
    as (s' & Hrun & _ & Hcalls & _).
  exists s'. split; [exact Hrun|exact Hcalls].
Defined.

Lemma ensure_directory_makes_directory d s s' :
  ensure_directory d s = (Ok tt, s') →
  (∀ q, is_file q s = false → is_file q s' = false)
  ∧ (is_file d s = false → fs s' !! d = Some Dir).
Proof.
  intros Hrun. pose proof (ensure_directory_cases d s) as H.
  rewrite Hrun in H. destruct H as (Hex & _ & Hnew & _).
  assert (Hfile : ∀ q, is_file q s = false → is_file q s' = false).
  { intros q Hq. unfold is_file in *.
    destruct (fs s' !! q) as [n|] eqn:Hq'; [|done].
    destruct (Hnew q n Hq') as [Hold| ->]; [|done]. by rewrite Hold in Hq. }
  split; [done|]. intros Hd. specialize (Hfile d Hd).
  unfold exists_, is_file in *. by destruct (fs s' !! d) as [[]|].
Qed.

(** X20.  When the start of [main] returns, the input and the output path
    exist, whether or not the start-up pass ran, and nothing that was in
    the filesystem before has been removed or changed; each of the two is
    a directory, unless a regular file was at that path before, which
    [ensure_directory] accepts as it is. *)
Theorem main_startup_directories
    (c : ConversionConfig) (env : Env) (no_process_existing : bool) (s s' : state) :
  main_startup c env no_process_existing s = (Ok tt, s') →
  exists_ (input_dir c) s' = true ∧ exists_ (output_dir c) s' = true
  ∧ fs s ⊆ fs s'
  ∧ (is_file (input_dir c) s = false → fs s' !! input_dir c = Some Dir)
  ∧ (is_file (output_dir c) s = false → fs s' !! output_dir c = Some Dir).
Proof.
  unfold main_startup, bind.
  pose proof (ensure_directory_cases (input_dir c) s) as H1.
  pose proof (ensure_directory_makes_directory (input_dir c) s) as D1.
  destruct (ensure_directory (input_dir c) s) as [[[]|e] s1]; [|done].
  destruct H1 as (Hin & Hsub1 & _). destruct (D1 s1 eq_refl) as [Dfile1 Ddir1].
  pose proof (ensure_directory_cases (output_dir c) s1) as H2.
  pose proof (ensure_directory_makes_directory (output_dir c) s1) as D2.
  destruct (ensure_directory (output_dir c) s1) as [[[]|e] s2]; [|done].
  destruct H2 as (Hout & Hsub2 & _). destruct (D2 s2 eq_refl) as [_ Ddir2].
  assert (Hkeep : ∀ q s3, fs s2 ⊆ fs s3 → exists_ q s2 = true → exists_ q s3 = true).
  { intros q s3 Hsub. unfold exists_.
    destruct (fs s2 !! q) as [n|] eqn:Hq; [|done].
    by rewrite (lookup_weaken _ _ _ _ Hq Hsub). }
  assert (Hin2 : exists_ (input_dir c) s2 = true).
  { revert Hin. unfold exists_.
    destruct (fs s1 !! input_dir c) as [n|] eqn:Hq; [|done].
    by rewrite (lookup_weaken _ _ _ _ Hq Hsub2). }
  intros Hrun.
  assert (Hsub3 : fs s2 ⊆ fs s').
  { destruct no_process_existing; simpl in Hrun.
    - by injection Hrun as <-.
    - pose proof (keeps_files_bind (iterdir (input_dir c))
                    (fun paths => for_each (process_existing_file c env) (sorted paths))) as Hk.
      assert (Hpass : keeps_files (process_existing_files c env)).
      { apply Hk.
        - intros s0. unfold iterdir. by destruct (fs s0 !! input_dir c) as [[]|].
        - intros paths. apply keeps_files_for_each, keeps_files_process_existing_file. }
      specialize (Hpass s2). by rewrite Hrun in Hpass. }
  split; [by apply (Hkeep _ s')|split; [by apply (Hkeep _ s')|]].
  split; [by etrans; [|etrans]|]. split.
  - intros Hd. apply (lookup_weaken (fs s1)); [by apply Ddir1|by etrans].
  - intros Hd. apply (lookup_weaken (fs s2)); [|done]. by apply Ddir2, Dfile1.
Qed.

Lemma main_startup_directories_witness :
  is_file "/in" (state_of fs_two_videos) = false
  ∧ ∃ s', main_startup example_config env_converts false (state_of fs_two_videos)
          = (Ok tt, s')
          ∧ exists_ "/in" s' = true ∧ exists_ "/out" s' = true
          ∧ fs s' !! "/in" = Some Dir.
Proof.
  split; [reflexivity|].
  eexists. split; [vm_compute; reflexivity|].
  destruct (main_startup_directories example_config env_converts false
              (state_of fs_two_videos) _ ltac:(vm_compute; reflexivity))
    as (H1 & H2 & _ & H3 & _).
  split; [exact H1|split; [exact H2|exact (H3 eq_refl)]].
Defined.

(** X21.  When the transcoder exits with status 0 having written its
    output, and what it wrote to stderr decodes, [convert_video_to_mp4]
    returns normally with the output at the destination, after one
    back-end call with the fixed command line; a further call for any
    source with the same stem finds the output and calls nothing. *)
Theorem video_conversion_then_skip
    (env : Env) (src1 src2 dest_dir ffmpeg crf preset : string)
    (s : state) (stderr data : string) :
  let output_path := joinpath dest_dir (stem src1 +:+ ".mp4") in
  let cmd := ffmpeg_cmd src1 output_path ffmpeg crf preset in
  stem src2 = stem src1 →
  exists_ output_path s = false →
  spawn env cmd (fs s) = Exited 0 stderr (Some data) →
  let r1 := convert_video_to_mp4 env src1 dest_dir ffmpeg crf preset s in
  let r2 := convert_video_to_mp4 env src2 dest_dir ffmpeg crf preset r1.2 in
  r1.1 = Ok tt
  ∧ fs r1.2 = <[output_path := File data]> (fs s)
  ∧ calls r1.2 = calls s ++ [CallSubprocess cmd]
  ∧ r2.1 = Ok tt ∧ fs r2.2 = fs r1.2 ∧ calls r2.2 = calls r1.2.
Proof.
  intros output_path cmd Hstem Hex Hspawn r1 r2.
  assert (Hr1 : r1.1 = Ok tt
                ∧ fs r1.2 = <[output_path := File data]> (fs s)
                ∧ calls r1.2 = calls s ++ [CallSubprocess cmd]).
  { unfold r1, convert_video_to_mp4. fold output_path. rewrite Hex.
    change [ffmpeg; "-y"; "-i"; src1; "-c:v"; "libx264"; "-preset"; preset;
            "-crf"; crf; "-c:a"; "aac"; "-b:a"; "192k"; output_path] with cmd.
    unfold subprocess_run. simpl fs. rewrite Hspawn. simpl.
    by destruct (nonempty stderr). }
  destruct Hr1 as (Hok & Hfs & Hcalls).
  assert (Hex1 : exists_ (joinpath dest_dir (stem src2 +:+ ".mp4")) r1.2 = true).
  { rewrite Hstem. fold output_path. unfold exists_. by rewrite Hfs, lookup_insert_eq. }
  unfold r2. rewrite (convert_video_existing env src2 dest_dir ffmpeg crf preset _ Hex1).
  by repeat split.
Qed.

Lemma video_conversion_then_skip_witness :
  stem "/in/a.mov" = stem "/in/a.mov"
  ∧ exists_ "/out/videos/a.mp4" (state_of fs_two_videos) = false
  ∧ let r1 := convert_video_to_mp4 env_ffmpeg_ok "/in/a.mov" "/out/videos"
                "ffmpeg" "23" "medium" (state_of fs_two_videos) in
    r1.1 = Ok tt
    ∧ fs r1.2 = <["/out/videos/a.mp4" := File "MP4"]> fs_two_videos.
Proof.
  split; [reflexivity|split; [reflexivity|]].
  destruct (video_conversion_then_skip env_ffmpeg_ok "/in/a.mov" "/in/a.mov"
              "/out/videos" "ffmpeg" "23" "medium" (state_of fs_two_videos)
              "frame=1 fps=25 " "MP4" eq_refl eq_refl eq_refl)
    as (H1 & H2 & _).
  split; [exact H1|exact H2].
Defined.

Lemma append_assoc (a b c : string) : (a +:+ b) +:+ c = a +:+ (b +:+ c).
Proof. induction a as [|x a IH]; [done|]. by rewrite !append_cons, IH. Qed.

(** X22.  The two class directories are different, and no destination of
    an image conversion is a destination of a video conversion, whatever
    the names: an image and a video with one stem do not compete for an
    output. *)
Theorem class_directories_disjoint (c : ConversionConfig) (x y : string) :
  image_output_dir c ≠ video_output_dir c
  ∧ joinpath (image_output_dir c) x ≠ joinpath (video_output_dir c) y.
Proof.
  unfold image_output_dir, video_output_dir, joinpath. split.
  - intros H. apply (inj (String.append (output_dir c))) in H. discriminate H.
  - rewrite !append_assoc. intros H.
    apply (inj (String.append (output_dir c))) in H. discriminate H.
Qed.

(** ** A second start-up pass *)

Lemma calls_absent_ret {A} (a : A) : calls_absent (ret a).
Proof. intros s. exists []. by rewrite app_nil_r. Qed.

Lemma calls_absent_logging l m : calls_absent (exec (logging l m)).
Proof. intros s. exists []. by rewrite app_nil_r. Qed.

Lemma calls_absent_bind {A B} (m : M A) (k : A → M B) :
  keeps_files m → calls_absent m → (∀ a, calls_absent (k a)) →
  calls_absent (bind m k).
Proof.
  intros Hfiles Hm Hk s. unfold bind.
  specialize (Hfiles s). destruct (Hm s) as (added1 & Hc1 & Ha1).
  destruct (m s) as [[a|e] s1]; simpl in *; [|by exists added1].
  destruct (Hk a s1) as (added2 & Hc2 & Ha2).
  exists (added1 ++ added2). split; [by rewrite Hc2, Hc1, (assoc_L (++))|].
  apply Forall_app. split; [done|].
  eapply Forall_impl; [exact Ha2|]. intros call Hnone; simpl in *.
  destruct (fs s !! call_destination call) as [n|] eqn:Hs; [|done].
  by rewrite (lookup_weaken _ _ _ _ Hs Hfiles) in Hnone.
Qed.

Lemma calls_absent_ensure_directory d : calls_absent (ensure_directory d).
Proof.
  intros s. exists []. rewrite app_nil_r.
  split; [apply ensure_directory_calls|done].
Qed.

Lemma calls_absent_convert_image env src d :
  calls_absent (convert_image_to_png env src d).
Proof.
  intros s. unfold convert_image_to_png.
  destruct (exists_ _ s) eqn:Hex; [exists []; by rewrite app_nil_r|].
  apply exists_false_lookup in Hex.
  exists [CallImage src (joinpath d (stem src +:+ ".png"))].
  split; [|by repeat constructor].
  destruct (pillow env _ _ _) as [png|e partial]; [done|].
  by destruct e, partial.
Qed.

Lemma calls_absent_convert_video env src d bin crf preset :
  calls_absent (convert_video_to_mp4 env src d bin crf preset).
Proof.
  intros s. unfold convert_video_to_mp4.
  destruct (exists_ _ s) eqn:Hex; [exists []; by rewrite app_nil_r|].
  pose proof (exists_false_lookup _ _ Hex) as Hnone.
  exists [CallSubprocess (ffmpeg_cmd src (joinpath d (stem src +:+ ".mp4"))
                            bin crf preset)].
  split; [|by repeat constructor].
  unfold subprocess_run, ffmpeg_cmd. simpl fs. simpl List.last.
  destruct (spawn env _ _) as [e|rc err written|rc written].
  - destruct e; simpl; try done. unfold exists_; simpl. by rewrite Hnone.
  - destruct (rc =? 0).
    + by destruct (nonempty err), written.
    + destruct written as [data|]; simpl.
      * unfold exists_, unlink; simpl. by rewrite lookup_insert_eq.
      * unfold exists_; simpl. by rewrite Hnone.
  - by destruct written.
Qed.

Lemma calls_absent_for_each {A} (body : A → M unit) l :
  (∀ x, keeps_files (body x)) → (∀ x, calls_absent (body x)) →
  calls_absent (for_each body l).
Proof.
  intros Hf Hc. induction l as [|x l IH]; simpl; [apply calls_absent_ret|].
  apply calls_absent_bind; auto.
Qed.

Lemma calls_absent_process_existing_file c env q :
  calls_absent (process_existing_file c env q).
Proof.
  intros s. unfold process_existing_file.
  destruct (is_file q s); [|exists []; by rewrite app_nil_r].
  destruct (_ || _); [|exists []; by rewrite app_nil_r].
  apply calls_absent_bind;
    [apply keeps_files_logging|apply calls_absent_logging|intros _].
  case_bool_decide;
    (apply calls_absent_bind;
       [apply keeps_files_ensure_directory|apply calls_absent_ensure_directory|
        intros _]);
    [apply calls_absent_convert_image|apply calls_absent_convert_video].
Qed.

Lemma keeps_files_process_existing_files c env :
  keeps_files (process_existing_files c env).
Proof.
  unfold process_existing_files. apply keeps_files_bind.
  - intros s. unfold iterdir. by destruct (fs s !! input_dir c) as [[]|].
  - intros paths. apply keeps_files_for_each, keeps_files_process_existing_file.
Qed.

Lemma calls_absent_process_existing_files c env :
  calls_absent (process_existing_files c env).
Proof.
  unfold process_existing_files. apply calls_absent_bind.
  - intros s. unfold iterdir. by destruct (fs s !! input_dir c) as [[]|].
  - intros s. exists []. rewrite app_nil_r.
    unfold iterdir. by destruct (fs s !! input_dir c) as [[]|].
  - intros paths. apply calls_absent_for_each.
    + apply keeps_files_process_existing_file.
    + apply calls_absent_process_existing_file.
Qed.

Lemma for_each_app {A} (body : A → M unit) (l1 l2 : list A) (s : state) :
  for_each body (l1 ++ l2) s =
  match for_each body l1 s with
  | (Ok _, s') => for_each body l2 s'
  | (Raise e, s') => (Raise e, s')
  end.
Proof.
  revert s; induction l1 as [|x l1 IH]; intros s; simpl; [done|].
  unfold bind. destruct (body x s) as [[[]|e] s1]; [apply IH|done].
Qed.

(** What the turn of one entry leaves in the filesystem is still there
    when the pass ends. *)
Lemma turn_output_survives_pass c env s l1 p l2 sp :
  fs s !! input_dir c = Some Dir →
  sorted (entries (input_dir c) s) = l1 ++ p :: l2 →
  for_each (process_existing_file c env) l1 s = (Ok tt, sp) →
  fs (process_existing_file c env p sp).2 ⊆ fs (process_existing_files c env s).2.
Proof.
  intros Hd Hl Hrun. unfold process_existing_files, bind, iterdir.
  rewrite Hd, Hl, for_each_app, Hrun. simpl. unfold bind.
  destruct (process_existing_file c env p sp) as [[[]|e] s1]; simpl; [|done].
  apply (keeps_files_for_each (process_existing_file c env) l2).
  apply keeps_files_process_existing_file.
Qed.

(** C3, as the code has it.  When the destination (the stem of the source
    plus the fixed target extension, in the class directory) exists, each
    converter returns after logging the skip, without calling its back end
    and without touching the filesystem.  Of two start-up passes run one
    after the other, neither removes or changes an entry that exists, what
    the turn of a file wrote during the first is still there when the
    first ends, and the second calls a back end only for destinations that
    are absent after the first: no file whose output exists after the first
    pass, those the first pass converted among them, is converted again.
    When after the first pass every configured regular file has its class
    directory and its destination, the second pass calls no back end,
    leaves the filesystem as it is, and logs only the files it visits and
    their skips. *)
Theorem existing_output_is_skipped
    (c : ConversionConfig) (env : Env) (s : state) :
  let s1 := (process_existing_files c env s).2 in
  let s2 := (process_existing_files c env s1).2 in
  (∀ src dest_dir s0,
     exists_ (joinpath dest_dir (stem src +:+ ".png")) s0 = true →
     ∃ s', convert_image_to_png env src dest_dir s0 = (Ok tt, s')
           ∧ calls s' = calls s0 ∧ fs s' = fs s0
           ∧ log s' = log s0 ++ [(INFO, ImageOutputExists
                                          (joinpath dest_dir (stem src +:+ ".png")))])
  ∧ (∀ src dest_dir ffmpeg crf preset s0,
     exists_ (joinpath dest_dir (stem src +:+ ".mp4")) s0 = true →
     ∃ s', convert_video_to_mp4 env src dest_dir ffmpeg crf preset s0 = (Ok tt, s')
           ∧ calls s' = calls s0 ∧ fs s' = fs s0
           ∧ log s' = log s0 ++ [(INFO, VideoOutputExists
                                          (joinpath dest_dir (stem src +:+ ".mp4")))])
  ∧ (fs s ⊆ fs s1 ∧ fs s1 ⊆ fs s2)
  ∧ (∀ l1 p l2 sp,
     fs s !! input_dir c = Some Dir →
     sorted (entries (input_dir c) s) = l1 ++ p :: l2 →
     for_each (process_existing_file c env) l1 s = (Ok tt, sp) →
     fs (process_existing_file c env p sp).2 ⊆ fs s1)
  ∧ (∃ added,
       calls s2 = calls s1 ++ added
       ∧ Forall (fun k => fs s1 !! call_destination k = None) added)
  ∧ (fs s1 !! input_dir c = Some Dir →
     forallb (already_converted c s1) (sorted (entries (input_dir c) s1)) = true →
     ∃ added,
       process_existing_files c env s1 = (Ok tt, s2)
       ∧ calls s2 = calls s1 ∧ fs s2 = fs s1
       ∧ log s2 = log s1 ++ added ∧ forallb is_skip_record added = true).
Proof.
  intros s1 s2. split; [|split; [|split; [|split; [|split]]]].
  - intros src dest_dir s0 H. rewrite convert_image_existing by done. by eexists.
  - intros src dest_dir ffmpeg crf preset s0 H.
    rewrite convert_video_existing by done. by eexists.
  - split; apply keeps_files_process_existing_files.
  - intros l1 p l2 sp. apply turn_output_survives_pass.
  - apply calls_absent_process_existing_files.
  - intros Hd H.
    destruct (process_existing_files_already_converted c env s1 Hd H)
      as (s' & added & Hrun & ? & ? & ? & ?).
    exists added. unfold s2. rewrite Hrun. by simpl.
Qed.

Lemma existing_output_is_skipped_witness :
  let s1 := (process_existing_files example_config env_converts
               (state_of fs_two_videos)).2 in
  let s2 := (process_existing_files example_config env_converts s1).2 in
  fs s1 !! input_dir example_config = Some Dir
  ∧ forallb (already_converted example_config s1)
      (sorted (entries (input_dir example_config) s1)) = true
  ∧ ∃ added,
      process_existing_files example_config env_converts s1 = (Ok tt, s2)
      ∧ calls s2 = calls s1 ∧ fs s2 = fs s1
      ∧ log s2 = log s1 ++ added ∧ forallb is_skip_record added = true.
Proof.
  intros s1 s2.
  assert (Hd : fs s1 !! input_dir example_config = Some Dir)
    by (vm_compute; reflexivity).
  assert (H : forallb (already_converted example_config s1)
                (sorted (entries (input_dir example_config) s1)) = true)
    by (vm_compute; reflexivity).
  split; [exact Hd|split; [exact H|]].
  destruct (existing_output_is_skipped example_config env_converts
              (state_of fs_two_videos)) as (_ & _ & _ & _ & _ & Hlast).
  exact (Hlast Hd H).
Defined.
